(** * First-order optimisers of the SOADML notebooks

    The notebooks compute with NumPy arrays of floating-point numbers.  The
    development below reads every array over an arbitrary real field [F]
    (instantiated with [rat] in the examples), so that the statements are
    about the algorithms and not about rounding.  Two places are about
    binary64 itself and are modelled as such: the closed-form least-squares
    minimiser, whose failure depends on a computed pivot ([Lapack], run
    over the primitive binary64 numbers), and the exponential inside the
    logistic gradient, which overflows ([Logistic.grad_f_eval]).

    Conventions for NumPy values:
    - a 1-D array of length [p] is a column vector ['cV[F]_p];
    - a 2-D array of shape [(n, p)] is a matrix ['M[F]_(n, p)];
    - [A.dot(v)] with [A] 2-D and [v] 1-D is [A *m v];
    - [X[i]] is [getrow X i], the [i]-th row read as a 1-D array;
    - [u.dot(v)] with both 1-D is [inner u v];
    - [c.dot(A)] with [c] 1-D and [A] 2-D is [vdot c A]. *)

From Stdlib Require Import PrimFloat.
From HB Require Import structures.
From mathcomp Require Import boot order algebra.
Import Order.TTheory GRing.Theory Num.Theory.

Set Implicit Arguments.
Unset Strict Implicit.
Unset Printing Implicit Defensive.

Local Open Scope ring_scope.

(** ** NumPy array operations *)

Module Np.
Section Arrays.
Variable F : realFieldType.

(** [X[i]] for a 2-D array [X]. *)
Definition getrow n p (A : 'M[F]_(n, p)) (i : 'I_n) : 'cV[F]_p := (row i A)^T.

(** [u.dot(v)] for two 1-D arrays. *)
Definition inner p (u v : 'cV[F]_p) : F := \sum_j u j 0 * v j 0.

(** [c.dot(A)] for a 1-D array [c] and a 2-D array [A]. *)
Definition vdot n p (c : 'cV[F]_n) (A : 'M[F]_(n, p)) : 'cV[F]_p := (c^T *m A)^T.

(** [u * v] for two 1-D arrays of the same length (elementwise). *)
Definition emul n (u v : 'cV[F]_n) : 'cV[F]_n := \col_i (u i 0 * v i 0).

(** [u / v] for two 1-D arrays of the same length (elementwise). *)
Definition ediv n (u v : 'cV[F]_n) : 'cV[F]_n := \col_i (u i 0 / v i 0).

(** [a + v] for a scalar [a] and a 1-D array [v] (broadcast). *)
Definition sadd n (a : F) (v : 'cV[F]_n) : 'cV[F]_n := \col_i (a + v i 0).

(** [np.linalg.norm(v)**2]: the squared Euclidean norm. *)
Definition sqnorm n (v : 'cV[F]_n) : F := \sum_i v i 0 ^+ 2.

(** [np.mean(A, axis=0)] for a 2-D array. *)
Definition mean0 n p (A : 'M[F]_(n, p)) : 'cV[F]_p :=
  n%:R^-1 *: \sum_i getrow A i.

(** [A[i] = v] or [A[k, :] = v]: the row whose position is [k] is
    overwritten.  The position is compared as a natural number; the loops
    below only ever write at positions inside the array. *)
Definition setrow n p (A : 'M[F]_(n, p)) (k : nat) (v : 'cV[F]_p) : 'M[F]_(n, p) :=
  \matrix_(r, c) if (r : nat) == k then v c 0 else A r c.

(** [np.linalg.inv] in exact arithmetic: the inverse, and
    [LinAlgError("Singular matrix")] on a singular argument.  In binary64
    the error depends on a computed pivot; the routine itself is [Lapack]
    below. *)
Inductive LinAlgError : Type := SingularMatrix.

Definition linalg_inv n (A : 'M[F]_n) : LinAlgError + 'M[F]_n :=
  if A \in unitmx then inr (invmx A) else inl SingularMatrix.

End Arrays.
End Np.

(** ** Objective oracles *)

(** Least squares, [SOADML_2_SVRG_and_SAGA.ipynb]. *)
Module LeastSquares.
Section Oracle.
Variable F : realFieldType.
Variables n p : nat.
Variable X : 'M[F]_(n, p).
Variable y : 'cV[F]_n.

(** [0.5 * np.linalg.norm(y - X.dot(theta))**2] *)
Definition f (theta : 'cV[F]_p) : F := 2^-1 * Np.sqnorm (y - X *m theta).

(** [- X.T.dot(y - X.dot(theta))] *)
Definition full_grad_f (theta : 'cV[F]_p) : 'cV[F]_p :=
  - (X^T *m (y - X *m theta)).

(** [- X[i]*(y[i] - X[i].dot(theta))] *)
Definition grad_f (theta : 'cV[F]_p) (i : 'I_n) : 'cV[F]_p :=
  - ((y i 0 - Np.inner (Np.getrow X i) theta) *: Np.getrow X i).

(** [np.linalg.inv(X.T.dot(X)).dot(X.T).dot(y)] *)
Definition theta_star : Np.LinAlgError + 'cV[F]_p :=
  match Np.linalg_inv (X^T *m X) with
  | inl e => inl e
  | inr A => inr (A *m X^T *m y)
  end.

End Oracle.
End LeastSquares.

(** ** [np.linalg.inv] as LAPACK computes it

    [np.linalg.inv(A)] solves [A X = I] with LAPACK's [gesv]: an LU
    factorisation with partial pivoting ([getrf]) followed by two triangular
    solves ([getrs]); NumPy raises [LinAlgError("Singular matrix")] when the
    factorisation reports a pivot that is exactly zero.  The routine is
    written out below for two features (a 2 x 2 system), over an arithmetic
    given as a parameter, so that the same code runs in exact arithmetic
    and in binary64. *)
Module Lapack.

(** The operations and the tests the routine uses. *)
Record arith (T : Type) : Type := Arith {
  zero : T;
  one : T;
  add : T -> T -> T;
  sub : T -> T -> T;
  mul : T -> T -> T;
  div : T -> T -> T;
  is_zero : T -> bool;       (* x == 0 *)
  abs_lt : T -> T -> bool;   (* |x| < |y| *)
  safe : T -> bool           (* |x| >= sfmin, the safe minimum *)
}.

Section Gesv.
Variable T : Type.
Variable A : arith T.

(** A 2 x 2 array, [[a11, a12], [a21, a22]]. *)
Record mx22 : Type := Mx22 { a11 : T; a12 : T; a21 : T; a22 : T }.

(** [getrf]: the pivot of the first column is its first entry of largest
    absolute value; the rows are exchanged when it is the second one; the
    multiplier is the other entry times the reciprocal of the pivot (the
    quotient itself for a pivot below the safe minimum); the second pivot
    is what elimination leaves in the corner, the product and the
    difference being rounded one after the other.  A pivot equal to zero is
    reported ([INFO > 0]), and nothing is solved.  The result holds [U] in
    its upper triangle, the multiplier below it, and tells whether the rows
    were exchanged. *)
Definition getrf (M : mx22) : Np.LinAlgError + mx22 * bool :=
  let swap := abs_lt A (a11 M) (a21 M) in
  let P := if swap then Mx22 (a21 M) (a22 M) (a11 M) (a12 M) else M in
  if is_zero A (a11 P) then inl Np.SingularMatrix
  else
    let l := if safe A (a11 P) then mul A (div A (one A) (a11 P)) (a21 P)
             else div A (a21 P) (a11 P) in
    let u22 := sub A (a22 P) (mul A l (a12 P)) in
    if is_zero A u22 then inl Np.SingularMatrix
    else inr (Mx22 (a11 P) (a12 P) l u22, swap).

(** [getrs] for one right-hand side [b], already permuted: forward
    substitution with the unit lower triangle, then back substitution with
    [U]; as in [trsm], an entry equal to zero is skipped. *)
Definition getrs (LU : mx22) (b : T * T) : T * T :=
  let y2 := if is_zero A b.1 then b.2 else sub A b.2 (mul A b.1 (a21 LU)) in
  let x2 := if is_zero A y2 then y2 else div A y2 (a22 LU) in
  let y1 := if is_zero A y2 then b.1 else sub A b.1 (mul A x2 (a12 LU)) in
  let x1 := if is_zero A y1 then y1 else div A y1 (a11 LU) in
  (x1, x2).

(** [np.linalg.inv(M)]: the columns of the inverse solve [M x = e1] and
    [M x = e2]. *)
Definition inv (M : mx22) : Np.LinAlgError + mx22 :=
  match getrf M with
  | inl e => inl e
  | inr (LU, swap) =>
      let e1 := (one A, zero A) in
      let e2 := (zero A, one A) in
      let c1 := getrs LU (if swap then e2 else e1) in
      let c2 := getrs LU (if swap then e1 else e2) in
      inr (Mx22 c1.1 c2.1 c1.2 c2.2)
  end.

(** The sum behind every [dot]: the products are accumulated in order,
    starting from zero. *)
Definition sum (s : seq T) : T := foldl (add A) (zero A) s.

(** [X.T.dot(X)] for an array [X] of shape [(n, 2)], given by its rows. *)
Definition gram (X : seq (T * T)) : mx22 :=
  Mx22 (sum [seq mul A x.1 x.1 | x <- X]) (sum [seq mul A x.1 x.2 | x <- X])
       (sum [seq mul A x.2 x.1 | x <- X]) (sum [seq mul A x.2 x.2 | x <- X]).

(** [np.linalg.inv(X.T.dot(X)).dot(X.T).dot(y)], with [X] of shape
    [(n, 2)] and [y] of length [n]: [C] is [inv(...).dot(X.T)], column by
    column. *)
Definition theta_star (X : seq (T * T)) (y : seq T)
    : Np.LinAlgError + T * T :=
  match inv (gram X) with
  | inl e => inl e
  | inr B =>
      let C := [seq (sum [:: mul A (a11 B) x.1; mul A (a12 B) x.2],
                     sum [:: mul A (a21 B) x.1; mul A (a22 B) x.2])
               | x <- X] in
      inr (sum [seq mul A cv.1.1 cv.2 | cv <- zip C y],
           sum [seq mul A cv.1.2 cv.2 | cv <- zip C y])
  end.

End Gesv.

(** Exact arithmetic over a real field; the safe minimum is any number. *)
Definition exact (F : realFieldType) (sfmin : F) : arith F :=
  Arith 0 1 +%R (fun a b => a - b) *%R (fun a b => a / b)
        (fun x => x == 0) (fun x y => `|x| < `|y|) (fun x => sfmin <= `|x|).


End Lapack.



(** Logistic loss, [SOADML_2_SVRG_and_SAGA.ipynb].  [exp] stands for
    [np.exp] on scalars; [log] for [np.log]. *)
Module Logistic.
Section Oracle.
Variable F : realFieldType.
Variables exp log : F -> F.
Variables n p : nat.
Variable X : 'M[F]_(n, p).
Variable y : 'cV[F]_n.

(** [np.mean(np.log(1.0 + np.exp(-y*X.dot(theta))))] *)
Definition f (theta : 'cV[F]_p) : F :=
  n%:R^-1 * \sum_i log (1 + exp (Np.emul (- y) (X *m theta) i 0)).

(** The argument handed to [np.exp] by [grad_f]: [y[i] * X[i].dot(theta)]. *)
Definition exp_arg (theta : 'cV[F]_p) (i : 'I_n) : F :=
  y i 0 * Np.inner (Np.getrow X i) theta.

(** [(1./n)*(-y/(1 + np.exp(y * X.dot(theta)))).dot(X)] *)
Definition full_grad_f (theta : 'cV[F]_p) : 'cV[F]_p :=
  n%:R^-1 *:
    Np.vdot (Np.ediv (- y) (Np.sadd 1 (map_mx exp (Np.emul y (X *m theta))))) X.

(** [(1./n)*(-y[i]/(1 + np.exp(y[i] * X[i].dot(theta))))*X[i]] *)
Definition grad_f (theta : 'cV[F]_p) (i : 'I_n) : 'cV[F]_p :=
  (n%:R^-1 * (- y i 0 / (1 + exp (exp_arg theta i)))) *: Np.getrow X i.

End Oracle.

(** *** How NumPy evaluates the per-datum gradient

    [np.exp] works in binary64.  Above [log_max], the logarithm of the
    largest finite binary64 number (about 709.78), its result is too large:
    the call returns [inf] and emits the overflow [RuntimeWarning].  The
    threshold is a parameter, so that no decimal approximation of it is
    built into the model.  The arithmetic around the call follows IEEE 754:
    [1 + inf] is [inf] and a finite number divided by [inf] is zero. *)
Section Evaluation.
Variable F : realFieldType.
Variable exp : F -> F.
Variable log_max : F.
Variables n p : nat.
Variable X : 'M[F]_(n, p).
Variable y : 'cV[F]_n.

Inductive np_float : Type := Finite of F | PosInf.

Definition np_exp (z : F) : np_float :=
  if log_max < z then PosInf else Finite (exp z).

(** [a + v] and [a / v] for a finite [a]. *)
Definition np_add (a : F) (v : np_float) : np_float :=
  if v is Finite e then Finite (a + e) else PosInf.

Definition np_div (a : F) (v : np_float) : F :=
  if v is Finite e then a / e else 0.

(** What one call of [grad_f] does: the array it returns, the arguments at
    which it called [np.exp], in order, and whether one of these calls
    overflowed. *)
Record evaluation : Type := Evaluation {
  value : 'cV[F]_p;
  exp_calls : seq F;
  overflow : bool
}.

(** [(1./n)*(-y[i]/(1 + np.exp(y[i] * X[i].dot(theta))))*X[i]] *)
Definition grad_f_eval (theta : 'cV[F]_p) (i : 'I_n) : evaluation :=
  let z := y i 0 * Np.inner (Np.getrow X i) theta in
  let e := np_exp z in
  Evaluation ((n%:R^-1 * np_div (- y i 0) (np_add 1 e)) *: Np.getrow X i)
             [:: z]
             (if e is PosInf then true else false).

End Evaluation.
End Logistic.

(** The three functions every loop of the notebooks calls, as one value. *)
Record oracle (F : realFieldType) (n p : nat) : Type := Oracle {
  f : 'cV[F]_p -> F;
  grad_f : 'cV[F]_p -> 'I_n -> 'cV[F]_p;
  full_grad_f : 'cV[F]_p -> 'cV[F]_p
}.

Definition least_squares_oracle (F : realFieldType) n p
    (X : 'M[F]_(n, p)) (y : 'cV[F]_n) : oracle F n p :=
  Oracle (LeastSquares.f X y) (LeastSquares.grad_f X y)
         (LeastSquares.full_grad_f X y).

Definition logistic_oracle (F : realFieldType) (exp log : F -> F) n p
    (X : 'M[F]_(n, p)) (y : 'cV[F]_n) : oracle F n p :=
  Oracle (Logistic.f exp log X y) (Logistic.grad_f exp X y)
         (Logistic.full_grad_f exp X y).

(** ** The loops

    [for t in range(m): body] is [iteri m body]: the body receives the
    counter and the state, in the order [0, 1, ..., m - 1].

    The pseudorandom generator behind [np.random] is an explicit state of
    type [Rng]; [randint] is the call [np.random.randint(0, n)], which
    returns an index below [n] and the next generator state.  A loop that
    draws carries the generator next to its own variables. *)

Section Drawing.
Variable n : nat.
Variable Rng : Type.
Variable randint : Rng -> 'I_n * Rng.
Variable S : Type.

(** One round of a loop whose body starts with
    [i = np.random.randint(0, n)]. *)
Definition draw_then (body : nat -> 'I_n -> S -> S)
    (t : nat) (sg : S * Rng) : S * Rng :=
  let: (i, g') := randint sg.2 in (body t i sg.1, g').

(** The generator after [k] draws, and the index the next draw returns. *)
Definition rng_after (g : Rng) (k : nat) : Rng :=
  iter k (fun g' => (randint g').2) g.

Definition drawn (g : Rng) (k : nat) : 'I_n := (randint (rng_after g k)).1.

End Drawing.

(** Stochastic gradient descent with averaging, second notebook. *)
Module SGD.
Section Loop.
Variable F : realFieldType.
Variables n p : nat.
Variable o : oracle F n p.
Variable step_size : F.

Record state : Type := State {
  theta : 'cV[F]_p;
  theta_averaged : 'cV[F]_p;
  theta_SGD_history : seq 'cV[F]_p;
  f_SGD_history : seq F;
  theta_averaged_history : seq 'cV[F]_p;
  f_averaged_history : seq F
}.

(** [theta_averaged0] is whatever the variable holds when the loop starts:
    a fresh random vector in the least-squares cell, the value left by the
    previous cell in the logistic one. *)
Definition init (theta0 theta_averaged0 : 'cV[F]_p) : state :=
  State theta0 theta_averaged0 [::] [::] [::] [::].

(** The body of the loop after the draw of [i]. *)
Definition body (t : nat) (i : 'I_n) (s : state) : state :=
  let theta' := theta s - step_size *: grad_f o (theta s) i in
  let theta_averaged' :=
    (t.+1)%:R^-1 *: (t%:R *: theta_averaged s + theta') in
  if (t %% (2 * n))%N == 0%N then
    State theta' theta_averaged'
          (rcons (theta_SGD_history s) theta')
          (rcons (f_SGD_history s) (f o theta'))
          (rcons (theta_averaged_history s) theta_averaged')
          (rcons (f_averaged_history s) (f o theta_averaged'))
  else
    State theta' theta_averaged'
          (theta_SGD_history s) (f_SGD_history s)
          (theta_averaged_history s) (f_averaged_history s).

Variable Rng : Type.
Variable randint : Rng -> 'I_n * Rng.

Definition run (max_iter : nat) (s0 : state) (g : Rng) : state * Rng :=
  iteri max_iter (draw_then randint body) (s0, g).

End Loop.
End SGD.

(** ** The SGD cells as the kernel runs them

    A cell of the notebook runs in the namespace of the kernel.  A name it
    reads must have been bound before, by the cell itself or by a cell run
    earlier; reading an unbound name raises [NameError] and stops the cell.
    The two SGD cells of the second notebook are transcribed below line by
    line over such a namespace.  [f], [grad_f] and the step size are bound
    by the lines above the loop and by the cell that defines the oracle;
    [randn] is the call [np.random.randn(p)], which draws from the same
    generator as [randint]. *)
Module Kernel.
Section Cells.
Variable F : realFieldType.
Variables n p : nat.
Variable o : oracle F n p.
Variable step_size : F.
Variable Rng : Type.
Variable randint : Rng -> 'I_n * Rng.
Variable randn : Rng -> 'cV[F]_p * Rng.

(** The names the SGD cells use; [None] is an unbound name. *)
Record names : Type := Names {
  theta : option 'cV[F]_p;
  theta_averaged : option 'cV[F]_p;
  theta_SGD_history : option (seq 'cV[F]_p);
  f_SGD_history : option (seq F);
  theta_averaged_history : option (seq 'cV[F]_p);
  f_averaged_history : option (seq F)
}.

Inductive name : Type :=
  | Theta
  | ThetaAveraged
  | ThetaSGDHistory
  | FSGDHistory
  | ThetaAveragedHistory
  | FAveragedHistory.

Inductive exn : Type := NameError of name.

(** A piece of a cell: it runs on the namespace and the generator, and
    either raises or returns a value and the new namespace and generator. *)
Definition cell (A : Type) : Type := names * Rng -> exn + A * (names * Rng).

Definition ret (A : Type) (a : A) : cell A := fun s => inr (a, s).

Definition bind (A B : Type) (m : cell A) (k : A -> cell B) : cell B :=
  fun s => match m s with inl e => inl e | inr (a, s') => k a s' end.

Local Notation "x <- m ;; k" := (bind m (fun x => k))
  (at level 65, m at next level, right associativity).
Local Notation "m ;; k" := (bind m (fun _ => k))
  (at level 65, right associativity).

(** Reading the name [x], whose binding is [get]. *)
Definition read (A : Type) (x : name) (get : names -> option A) : cell A :=
  fun s => if get s.1 is Some a then inr (a, s) else inl (NameError x).

(** An assignment. *)
Definition write (set : names -> names) : cell unit :=
  fun s => inr (tt, (set s.1, s.2)).

Definition set_theta v (k : names) : names :=
  Names (Some v) (theta_averaged k) (theta_SGD_history k) (f_SGD_history k)
        (theta_averaged_history k) (f_averaged_history k).

Definition set_theta_averaged v (k : names) : names :=
  Names (theta k) (Some v) (theta_SGD_history k) (f_SGD_history k)
        (theta_averaged_history k) (f_averaged_history k).

Definition set_theta_SGD_history v (k : names) : names :=
  Names (theta k) (theta_averaged k) (Some v) (f_SGD_history k)
        (theta_averaged_history k) (f_averaged_history k).

Definition set_f_SGD_history v (k : names) : names :=
  Names (theta k) (theta_averaged k) (theta_SGD_history k) (Some v)
        (theta_averaged_history k) (f_averaged_history k).

Definition set_theta_averaged_history v (k : names) : names :=
  Names (theta k) (theta_averaged k) (theta_SGD_history k) (f_SGD_history k)
        (Some v) (f_averaged_history k).

Definition set_f_averaged_history v (k : names) : names :=
  Names (theta k) (theta_averaged k) (theta_SGD_history k) (f_SGD_history k)
        (theta_averaged_history k) (Some v).

(** [np.random.randint(0, n)] and [np.random.randn(p)]. *)
Definition np_randint : cell 'I_n :=
  fun s => let: (i, g) := randint s.2 in inr (i, (s.1, g)).

Definition np_randn : cell 'cV[F]_p :=
  fun s => let: (v, g) := randn s.2 in inr (v, (s.1, g)).

(** [for t in range(m): body] *)
Definition for_range (m : nat) (body : nat -> cell unit) : cell unit :=
  iteri m (fun t c => c ;; body t) (ret tt).

(** The loop body shared by the two cells:
[[
    i = np.random.randint(0, n)
    theta = theta - step_size * grad_f(theta, i)
    theta_averaged = (t*theta_averaged + theta)/(t+1)
    if t%(2*n) == 0:
        theta_SGD_history.append(theta)
        f_SGD_history.append(f(theta))
        theta_averaged_history.append(theta_averaged)
        f_averaged_history.append(f(theta_averaged))
]]
    Every occurrence of a name on the right of an assignment is a read. *)
Definition sgd_body (t : nat) : cell unit :=
  i <- np_randint ;;
  th <- read Theta theta ;;
  th' <- read Theta theta ;;
  write (set_theta (th - step_size *: grad_f o th' i)) ;;
  ta <- read ThetaAveraged theta_averaged ;;
  th <- read Theta theta ;;
  write (set_theta_averaged ((t.+1)%:R^-1 *: (t%:R *: ta + th))) ;;
  if (t %% (2 * n))%N == 0%N then
    h <- read ThetaSGDHistory theta_SGD_history ;;
    th <- read Theta theta ;;
    write (set_theta_SGD_history (rcons h th)) ;;
    h <- read FSGDHistory f_SGD_history ;;
    th <- read Theta theta ;;
    write (set_f_SGD_history (rcons h (f o th))) ;;
    h <- read ThetaAveragedHistory theta_averaged_history ;;
    ta <- read ThetaAveraged theta_averaged ;;
    write (set_theta_averaged_history (rcons h ta)) ;;
    h <- read FAveragedHistory f_averaged_history ;;
    ta <- read ThetaAveraged theta_averaged ;;
    write (set_f_averaged_history (rcons h (f o ta)))
  else ret tt.

(** The four lists every SGD cell starts with. *)
Definition empty_histories : cell unit :=
  write (set_theta_SGD_history [::]) ;;
  write (set_f_SGD_history [::]) ;;
  write (set_theta_averaged_history [::]) ;;
  write (set_f_averaged_history [::]).

(** The least-squares cell (second notebook, lines 178-206): both [theta]
    and [theta_averaged] are bound to fresh random vectors before the
    loop. *)
Definition sgd_cell_least_squares (max_iter : nat) : cell unit :=
  empty_histories ;;
  v <- np_randn ;;
  write (set_theta v) ;;
  v <- np_randn ;;
  write (set_theta_averaged v) ;;
  for_range max_iter sgd_body.

(** The logistic cell (second notebook, lines 345-372): only [theta] is
    bound before the loop. *)
Definition sgd_cell_logistic (max_iter : nat) : cell unit :=
  empty_histories ;;
  v <- np_randn ;;
  write (set_theta v) ;;
  for_range max_iter sgd_body.

(** The namespace in which the variables of the loop hold the state [s]. *)
Definition names_of (s : SGD.state F p) : names :=
  Names (Some (SGD.theta s)) (Some (SGD.theta_averaged s))
        (Some (SGD.theta_SGD_history s)) (Some (SGD.f_SGD_history s))
        (Some (SGD.theta_averaged_history s))
        (Some (SGD.f_averaged_history s)).

End Cells.
End Kernel.

(** SAGA, second notebook (logistic cell).  The three lines left blank in
    the cell are the ones its text states: [g_i = grad f_i(theta_k)],
    [G = g_i - ghat_i + gbar] and [theta_{k+1} = theta_k - gamma G]. *)
Module SAGA.
Section Loop.
Variable F : realFieldType.
Variables n p : nat.
Variable o : oracle F n p.
Variable step_size : F.

Record state : Type := State {
  theta : 'cV[F]_p;
  gradients : 'M[F]_(n, p);
  mean_gradient : 'cV[F]_p;
  theta_history : seq 'cV[F]_p;
  f_history : seq F
}.

(** [gradients = np.zeros((n,p))], [mean_gradient = np.zeros(p)] *)
Definition init (theta0 : 'cV[F]_p) : state := State theta0 0 0 [::] [::].

(** The body of the loop after the draw of [i]. *)
Definition body (t : nat) (i : 'I_n) (s : state) : state :=
  let gradient_i := grad_f o (theta s) i in
  let G := gradient_i - Np.getrow (gradients s) i + mean_gradient s in
  let theta' := theta s - step_size *: G in
  let theta_history' :=
    if (t %% (2 * n))%N == 0%N then rcons (theta_history s) theta'
    else theta_history s in
  let f_history' :=
    if (t %% (2 * n))%N == 0%N then rcons (f_history s) (f o theta')
    else f_history s in
  let mean_gradient' :=
    mean_gradient s + n%:R^-1 *: (gradient_i - Np.getrow (gradients s) i) in
  let gradients' := Np.setrow (gradients s) i gradient_i in
  State theta' gradients' mean_gradient' theta_history' f_history'.

Variable Rng : Type.
Variable randint : Rng -> 'I_n * Rng.

Definition run (max_iter : nat) (s0 : state) (g : Rng) : state * Rng :=
  iteri max_iter (draw_then randint body) (s0, g).

End Loop.
End SAGA.

(** SVRG, second notebook (the completed logistic cell).  Every evaluation
    of the oracle is appended to a log, so that the cost of an epoch can be
    read off the final state. *)
Module SVRG.
Section Loop.
Variable F : realFieldType.
Variables n p : nat.
Variable o : oracle F n p.
Variable step_size : F.
Variable max_iter_inner : nat.

Inductive oracle_call : Type :=
  | FullGrad of 'cV[F]_p
  | DatumGrad of 'cV[F]_p & 'I_n.

Definition is_full (c : oracle_call) : bool :=
  if c is FullGrad _ then true else false.

Definition call_full_grad_f (theta : 'cV[F]_p) (log : seq oracle_call) :=
  (full_grad_f o theta, rcons log (FullGrad theta)).

Definition call_grad_f (theta : 'cV[F]_p) (i : 'I_n) (log : seq oracle_call) :=
  (grad_f o theta i, rcons log (DatumGrad theta i)).

Record state : Type := State {
  theta_hat : 'cV[F]_p;
  theta_history : 'M[F]_(max_iter_inner, p);
  f_SVRG_history : seq F;
  calls : seq oracle_call
}.

(** The variables the inner loop assigns. *)
Record inner_state : Type := Inner {
  theta : 'cV[F]_p;
  inner_history : 'M[F]_(max_iter_inner, p);
  inner_calls : seq oracle_call
}.

(** [theta_history = np.zeros((max_iter_inner, p))] *)
Definition init (theta_hat0 : 'cV[F]_p) : state := State theta_hat0 0 [::] [::].

(** The body of the inner loop after the draw of [i]. *)
Definition inner_body (theta_hat full_gradient_hat : 'cV[F]_p)
    (k : nat) (i : 'I_n) (s : inner_state) : inner_state :=
  let: (g_theta, log1) := call_grad_f (theta s) i (inner_calls s) in
  let: (g_hat, log2) := call_grad_f theta_hat i log1 in
  let theta' := theta s - step_size *: (g_theta - g_hat + full_gradient_hat) in
  Inner theta' (Np.setrow (inner_history s) k theta') log2.

Variable Rng : Type.
Variable randint : Rng -> 'I_n * Rng.

Definition epoch (t : nat) (sg : state * Rng) : state * Rng :=
  let: (s, g) := sg in
  let: (full_gradient_hat, log0) := call_full_grad_f (theta_hat s) (calls s) in
  let: (s1, g1) :=
    iteri max_iter_inner
          (draw_then randint (inner_body (theta_hat s) full_gradient_hat))
          (Inner (theta_hat s) (theta_history s) log0, g) in
  let theta_hat' := Np.mean0 (inner_history s1) in
  (State theta_hat' (inner_history s1)
         (rcons (f_SVRG_history s) (f o theta_hat'))
         (inner_calls s1),
   g1).

Definition run (max_iter : nat) (s0 : state) (g : Rng) : state * Rng :=
  iteri max_iter epoch (s0, g).

End Loop.

(** The inner iterates on their own: the iterate after [k] inner steps
    started at the snapshot [theta_hat0], when the [j]-th draw of the
    epoch returns [d j]. *)
Fixpoint inner_iterate (F : realFieldType) n p (o : oracle F n p)
    (step_size : F) (theta_hat0 : 'cV[F]_p) (d : nat -> 'I_n) (k : nat)
    : 'cV[F]_p :=
  match k with
  | 0 => theta_hat0
  | k'.+1 =>
      let th := inner_iterate o step_size theta_hat0 d k' in
      th - step_size *:
        (grad_f o th (d k') - grad_f o theta_hat0 (d k')
         + full_grad_f o theta_hat0)
  end.

End SVRG.

(** ADMM for the Lasso with one split, third notebook.  The notebook gives
    the iteration twice in its text: as three minimisation problems, and as
    three closed-form updates.  Both are transcribed; the notebook writes
    [b] for [y] in the first closed form. *)
Module ADMM.
Section Lasso.
Variable F : realFieldType.
Variables n p : nat.
Variable X : 'M[F]_(n, p).
Variable y : 'cV[F]_n.
Variables lam tau : F.

(** The positive part [(x)_+ := max(x, 0)]. *)
Definition pos (x : F) : F := Num.max x 0.

(** [||v||_1] *)
Definition l1norm m (v : 'cV[F]_m) : F := \sum_j `|v j 0|.

(** [1/(2n) ||X theta - y||^2 + tau/2 ||theta - rho + u||^2], minimised by
    the theta-update. *)
Definition theta_objective (rho u theta : 'cV[F]_p) : F :=
  (2 * n%:R)^-1 * Np.sqnorm (X *m theta - y)
  + tau / 2 * Np.sqnorm (theta - rho + u).

(** [lam ||r||_1 + tau/2 ||r - theta - u||^2], minimised by the
    rho-update. *)
Definition rho_objective (theta u r : 'cV[F]_p) : F :=
  lam * l1norm r + tau / 2 * Np.sqnorm (r - theta - u).

(** [1/n (X^T X / n + tau I)^{-1} (X^T b / n + tau (rho - u))] *)
Definition theta_update (rho u : 'cV[F]_p) : 'cV[F]_p :=
  n%:R^-1 *: (invmx (n%:R^-1 *: (X^T *m X) + tau%:M)
              *m (n%:R^-1 *: (X^T *m y) + tau *: (rho - u))).

(** [(theta + u - tau/lam)_+ - (tau/lam - theta - u)_+], coordinate by
    coordinate. *)
Definition rho_update (theta u : 'cV[F]_p) : 'cV[F]_p :=
  \col_j (pos (theta j 0 + u j 0 - tau / lam)
          - pos (tau / lam - theta j 0 - u j 0)).

(** [u + theta - rho] *)
Definition u_update (u theta rho : 'cV[F]_p) : 'cV[F]_p := u + theta - rho.

End Lasso.
End ADMM.

(** ** Notions used by the statements *)

(** [x] minimises [obj]. *)
Definition is_argmin (F : realFieldType) (T : Type) (obj : T -> F) (x : T) : Prop :=
  forall x', obj x <= obj x'.

(** The soft-threshold operator
    [prox_k(v)_j = sign(v_j) * max(|v_j| - k, 0)]. *)
Definition soft_threshold (F : realFieldType) p (k : F) (v : 'cV[F]_p) : 'cV[F]_p :=
  \col_j (Num.sg (v j 0) * Num.max (`|v j 0| - k) 0).

(** The theta-update of ADMM without its leading [1/n]:
    [(X^T X / n + tau I)^{-1} (X^T y / n + tau (rho - u))]. *)
Definition theta_solve (F : realFieldType) n p (X : 'M[F]_(n, p))
    (y : 'cV[F]_n) (tau : F) (rho u : 'cV[F]_p) : 'cV[F]_p :=
  invmx (n%:R^-1 *: (X^T *m X) + tau%:M)
  *m (n%:R^-1 *: (X^T *m y) + tau *: (rho - u)).

(** [ceil(T / m)] on natural numbers. *)
Definition ceil_div (T m : nat) : nat := ((T + m.-1) %/ m)%N.

(** The iterations of [range(T)] at which the SGD and SAGA loops record. *)
Definition recorded (n T : nat) : seq nat :=
  [seq t <- iota 0 T | (t %% (2 * n))%N == 0%N].

(** ** Concrete instances over the rationals *)

(** Two data with one feature, [X = [[1], [1]]] and [y = [1, 3]], over the
    rationals: [X^T X = [[2]]] is invertible. *)
Definition X21 : 'M[rat]_(2, 1) := const_mx 1.
Definition y21 : 'cV[rat]_2 := \col_i (if (i : nat) == 0%N then 1 else 3).

(** The same two data with class labels [+1] and [-1]. *)
Definition labels21 : 'cV[rat]_2 := \col_i (if (i : nat) == 0%N then 1 else -1).

(** The least-squares oracle of that instance. *)
Definition ls21 : oracle rat 2 1 := least_squares_oracle X21 y21.

(** A generator over two data whose state is a counter: it hands out the
    indices [0, 1, 0, 1, ...] in turn. *)
Definition alternate (g : nat) : 'I_2 * nat := (inord (g %% 2), g.+1).


(** ** Simulated data *)

Section Simulation.
Variable F : realFieldType.
Variables n p : nat.

(** [y = X.dot(w) + sigma*xi], the regression data of the notebooks. *)
Definition simulate_regression (X : 'M[F]_(n, p)) (w : 'cV[F]_p)
    (sigma : F) (xi : 'cV[F]_n) : 'cV[F]_n :=
  X *m w + sigma *: xi.

(** [y = np.sign(X.dot(w) + sigma*xi)], the classification data. *)
Definition simulate_labels (X : 'M[F]_(n, p)) (w : 'cV[F]_p)
    (sigma : F) (xi : 'cV[F]_n) : 'cV[F]_n :=
  map_mx Num.sg (X *m w + sigma *: xi).

(** [theta_star[ind[:-10]] = 0.], third notebook: [ind] is the shuffled
    [np.arange(n_features)], and the coefficients at all its positions but
    the last ten are overwritten by zero.  The slice [ind[:-10]] is empty
    when [ind] has at most ten elements.  An entry of [ind] beyond the
    array, on which numpy raises [IndexError], names no coefficient here;
    a shuffle of [np.arange(n_features)] has none. *)
Definition sparse_coefficients (theta_star : 'cV[F]_p) (ind : seq nat)
    : 'cV[F]_p :=
  let zeroed := take (size ind - 10) ind in
  \col_j (if (j : nat) \in zeroed then 0 else theta_star j 0).

End Simulation.

(** ** The tomography projection operator, third notebook *)

Module Tomo.
Section Projection.
Variable R : archiRealFieldType.

(** [np.ravel(A)] for a 2-D array: its rows one after the other. *)
Definition ravel m n (A : 'M[R]_(m, n)) : seq R :=
  [seq A a b | a <- enum 'I_m, b <- enum 'I_n].

(** [_weights(x, dx, orig)]: for every point of the raveled [x], the
    index of the cell to its left and of the next one, and the two linear
    interpolation weights. *)
Definition _weights m n (x : 'M[R]_(m, n)) (dx orig : R) : seq int * seq R :=
  let x := ravel x in
  let floor_x := [seq Num.floor ((v - orig) / dx) | v <- x] in
  let alpha := [seq (v - orig - (Num.floor ((v - orig) / dx))%:~R * dx) / dx
               | v <- x] in
  (floor_x ++ [seq k + 1 | k <- floor_x], [seq 1 - a | a <- alpha] ++ alpha).

(** [_generate_center_coordinates(l_x)]: the row and column numbers of the
    pixels, shifted by [0.5 - l_x / 2]. *)
Definition _generate_center_coordinates (l_x : nat)
    : 'M[R]_(l_x, l_x) * 'M[R]_(l_x, l_x) :=
  let center := l_x%:R / 2 in
  (\matrix_(a, b) ((a : nat)%:R + (2^-1 - center)),
   \matrix_(a, b) ((b : nat)%:R + (2^-1 - center))).

(** [A.min()]: numpy raises [ValueError] on an empty array. *)
Definition np_min (s : seq R) : option R :=
  if s is v :: s' then Some (foldr Num.min v s') else None.

(** The three lists handed to [sparse.coo_matrix]. *)
Record coo : Type := Coo {
  weights : seq R;
  camera_inds : seq int;
  data_inds : seq nat
}.

(** One round of the loop of [build_projection_operator], for direction
    number [i] whose angle has cosine [c] and sine [s]. *)
Definition add_direction (l_x : nat) (X Y : 'M[R]_(l_x, l_x))
    (i : nat) (c s : R) (acc : coo) : option coo :=
  let Xrot := c *: X - s *: Y in
  if np_min (ravel X) is Some orig then
    let: (inds, w) := _weights Xrot 1 orig in
    let msk := [seq (0 <= m) && (m < l_x%:Z) | m <- inds] in
    let data_unravel_indices := iota 0 (l_x ^ 2) ++ iota 0 (l_x ^ 2) in
    Some (Coo (weights acc ++ mask msk w)
              (camera_inds acc ++ [seq m + (i * l_x)%:Z | m <- mask msk inds])
              (data_inds acc ++ mask msk data_unravel_indices))
  else None.

(** [build_projection_operator(l_x, n_dir)] up to the call of
    [sparse.coo_matrix]; [cos], [sin] and [pi] stand for [np.cos],
    [np.sin] and [np.pi], and [np.linspace(0, np.pi, n_dir,
    endpoint=False)] is [k * (pi / n_dir)] for [k < n_dir]. *)
Definition build_projection_operator (cos sin : R -> R) (pi : R)
    (l_x n_dir : nat) : option coo :=
  let: (X, Y) := _generate_center_coordinates l_x in
  let angles := [seq k%:R * (pi / n_dir%:R) | k <- iota 0 n_dir] in
  foldl (fun acc ia =>
           if acc is Some a
           then add_direction X Y ia.1 (cos ia.2) (sin ia.2) a
           else None)
        (Some (Coo [::] [::] [::]))
        (zip (iota 0 n_dir) angles).

End Projection.
End Tomo.

(** ** Array lemmas *)

Section ArrayLemmas.
Variable F : realFieldType.

Lemma getrowE n p (A : 'M[F]_(n, p)) i j : Np.getrow A i j 0 = A i j.
Proof. by rewrite /Np.getrow !mxE. Qed.

Lemma inner_getrow n p (A : 'M[F]_(n, p)) (v : 'cV[F]_p) i :
  Np.inner (Np.getrow A i) v = (A *m v) i 0.
Proof.
rewrite /Np.inner mxE; apply: eq_bigr => j _.
by rewrite getrowE.
Qed.

Lemma vdotE n p (c : 'cV[F]_n) (A : 'M[F]_(n, p)) :
  Np.vdot c A = \sum_i c i 0 *: Np.getrow A i.
Proof.
apply/matrixP => j k; rewrite /Np.vdot !mxE summxE.
apply: eq_bigr => i _.
by rewrite !mxE (ord1 k).
Qed.

Lemma trmx_mul_col n p (A : 'M[F]_(n, p)) (v : 'cV[F]_n) :
  A^T *m v = \sum_i v i 0 *: Np.getrow A i.
Proof.
apply/matrixP => j k; rewrite !mxE summxE.
apply: eq_bigr => i _.
by rewrite !mxE (ord1 k) mulrC.
Qed.

End ArrayLemmas.

(** ** The full gradient against the per-datum gradients *)

(** C5: for both oracles the full gradient is the sum over the data of the
    per-datum gradients, each with its own normalisation (none for least
    squares, [1/n] on both sides for the logistic loss). *)
Theorem full_grad_is_sum_of_datum_grads (F : realFieldType) (exp : F -> F)
    n p (X : 'M[F]_(n, p)) (y : 'cV[F]_n) (theta : 'cV[F]_p) :
  LeastSquares.full_grad_f X y theta = \sum_i LeastSquares.grad_f X y theta i
  /\ Logistic.full_grad_f exp X y theta = \sum_i Logistic.grad_f exp X y theta i.
Proof.
split.
- rewrite /LeastSquares.full_grad_f /LeastSquares.grad_f trmx_mul_col -sumrN.
  apply: eq_bigr => i _.
  by rewrite inner_getrow !mxE.
- rewrite /Logistic.full_grad_f /Logistic.grad_f vdotE scaler_sumr.
  apply: eq_bigr => i _.
  by rewrite scalerA /Logistic.exp_arg inner_getrow !mxE.
Qed.

(** ** The closed-form least-squares minimiser *)

Section ThetaStar.
Variable F : realFieldType.
Variables n p : nat.
Variable X : 'M[F]_(n, p).
Variable y : 'cV[F]_n.

Lemma linalg_inv_unit m (A : 'M[F]_m) :
  A \in unitmx -> Np.linalg_inv A = inr (invmx A).
Proof. by rewrite /Np.linalg_inv => ->. Qed.


Lemma theta_star_unit :
  X^T *m X \in unitmx ->
  LeastSquares.theta_star X y = inr (invmx (X^T *m X) *m X^T *m y).
Proof. by move=> U; rewrite /LeastSquares.theta_star linalg_inv_unit. Qed.


(** The normal equations: the gradient vanishes at the solution. *)
Lemma normal_equations :
  X^T *m X \in unitmx ->
  LeastSquares.full_grad_f X y (invmx (X^T *m X) *m X^T *m y) = 0.
Proof.
move=> U; rewrite /LeastSquares.full_grad_f mulmxBr.
by rewrite -!mulmxA [X^T *m (X *m _)]mulmxA (mulKVmx U) subrr oppr0.
Qed.

End ThetaStar.


(** ** The closed-form minimiser as LAPACK computes it, two features *)

Section LapackExact.
Variable F : realFieldType.
Variable sfmin : F.

Local Notation E := (Lapack.exact sfmin).
Local Notation mx22_of G :=
  (Lapack.Mx22 (G ord0 ord0) (G ord0 ord_max) (G ord_max ord0)
               (G ord_max ord_max)).













End LapackExact.




Lemma X21_gram_unit : X21^T *m X21 \in unitmx.
Proof.
rewrite unitmxE det_mx11 !mxE !big_ord_recl big_ord0 !mxE.
by [].
Qed.


(** ** Loops that draw *)

Section DrawingLemmas.
Variable n : nat.
Variable Rng : Type.
Variable randint : Rng -> 'I_n * Rng.
Variable S : Type.
Variable body : nat -> 'I_n -> S -> S.

Lemma draw_thenE t s g :
  draw_then randint body t (s, g) = (body t (randint g).1 s, (randint g).2).
Proof. by rewrite /draw_then /=; case: (randint g). Qed.

(** A drawing loop is the loop over the indices the generator hands out,
    next to the generator advanced by as many draws. *)
Lemma iteri_draw_then T s0 g :
  iteri T (draw_then randint body) (s0, g)
  = (iteri T (fun t => body t (drawn randint g t)) s0, rng_after randint g T).
Proof. by elim: T => [|T IH] //; rewrite !iteriS IH draw_thenE. Qed.

Lemma rng_afterD g j k :
  rng_after randint (rng_after randint g j) k = rng_after randint g (j + k).
Proof. by rewrite /rng_after addnC iterD. Qed.

(** Any draw shows that there is at least one datum. *)
Lemma randint_pos (g : Rng) : (0 < n)%N.
Proof. exact: leq_ltn_trans (leq0n _) (ltn_ord (randint g).1). Qed.

End DrawingLemmas.

(** ** SAGA: the running mean of the gradient table *)

Section SagaMean.
Variable F : realFieldType.
Variables n p : nat.
Variable o : oracle F n p.
Variable step_size : F.

Local Notation body := (SAGA.body o step_size).

Lemma getrow_setrow (A : 'M[F]_(n, p)) (i j : 'I_n) (v : 'cV[F]_p) :
  Np.getrow (Np.setrow A i v) j = if j == i then v else Np.getrow A j.
Proof.
apply/matrixP => c d; rewrite /Np.getrow /Np.setrow !mxE (ord1 d) val_eqE.
by case: (j == i); rewrite ?mxE.
Qed.

Lemma sum_getrow_setrow (A : 'M[F]_(n, p)) (i : 'I_n) (v : 'cV[F]_p) :
  \sum_j Np.getrow (Np.setrow A i v) j = \sum_j Np.getrow A j - Np.getrow A i + v.
Proof.
rewrite (bigD1 i) //= [in RHS](bigD1 i) //= getrow_setrow eqxx.
rewrite (eq_bigr (fun j => Np.getrow A j)) => [j /negbTE ji|].
  by rewrite getrow_setrow ji.
by rewrite [X in _ = X - _ + _]addrC addrK addrC.
Qed.

Lemma saga_body_mean t i (s : SAGA.state F n p) :
  SAGA.mean_gradient s = Np.mean0 (SAGA.gradients s) ->
  SAGA.mean_gradient (body t i s) = Np.mean0 (SAGA.gradients (body t i s)).
Proof.
rewrite /SAGA.body /= => ->.
rewrite /Np.mean0 sum_getrow_setrow -scalerDr; congr (_ *: _).
by rewrite [_ - _]addrC addrA addrAC.
Qed.

Lemma saga_run_mean (Rng : Type) (randint : Rng -> 'I_n * Rng) T s0 g :
  SAGA.mean_gradient s0 = Np.mean0 (SAGA.gradients s0) ->
  let s := (SAGA.run o step_size randint T s0 g).1 in
  SAGA.mean_gradient s = Np.mean0 (SAGA.gradients s).
Proof.
move=> H0; rewrite /SAGA.run iteri_draw_then /=.
by elim: T => [|T IH] //; rewrite iteriS; apply: saga_body_mean.
Qed.

Lemma mean0_zero m : Np.mean0 (0 : 'M[F]_(m, p)) = 0.
Proof.
rewrite /Np.mean0 big1 ?scaler0 // => i _.
by apply/matrixP => c d; rewrite /Np.getrow !mxE.
Qed.

End SagaMean.

(** C1: SAGA starts from a zero table and a zero mean; after any number of
    iterations the mean is the average of the rows of the table, although
    every iteration only adds [(1/n) * (gradient_i - gradients[i])] to the
    mean and overwrites row [i] of the table. *)
Theorem saga_mean_is_table_average (F : realFieldType) n p
    (o : oracle F n p) (step_size : F) (Rng : Type)
    (randint : Rng -> 'I_n * Rng) (theta0 : 'cV[F]_p) (g0 : Rng) :
  let s0 := SAGA.init n theta0 in
  [/\ SAGA.gradients s0 = 0 /\ SAGA.mean_gradient s0 = 0,
      forall T,
        let s := (SAGA.run o step_size randint T s0 g0).1 in
        SAGA.mean_gradient s
          = n%:R^-1 *: \sum_j Np.getrow (SAGA.gradients s) j
    & forall t i (s : SAGA.state F n p),
        let gradient_i := grad_f o (SAGA.theta s) i in
        let s' := SAGA.body o step_size t i s in
        SAGA.mean_gradient s'
          = SAGA.mean_gradient s
            + n%:R^-1 *: (gradient_i - Np.getrow (SAGA.gradients s) i)
        /\ SAGA.gradients s' = Np.setrow (SAGA.gradients s) i gradient_i].
Proof.
split=> //.
by move=> T; apply: saga_run_mean; rewrite /= mean0_zero.
Qed.

(** ** Recording every [2n] iterations *)

Section Recording.

Lemma ceil_divE T m :
  (0 < m)%N -> ceil_div T m = (T %/ m + (T %% m != 0))%N.
Proof.
move=> m0; rewrite /ceil_div {1}(divn_eq T m) -addnA divnMDl //.
congr (_ + _)%N; have := ltn_pmod T m0.
case: (T %% m)%N => [|r] rm.
  by rewrite add0n divn_small // prednK.
by rewrite addSnnS prednK // divnDr // divnn m0 divn_small // ltnW.
Qed.

Lemma ceil_divS T m :
  (0 < m)%N -> ceil_div T.+1 m = (ceil_div T m + (T %% m == 0))%N.
Proof.
move=> m0; rewrite [in RHS]ceil_divE // /ceil_div addSnnS prednK //.
rewrite divnDr // divnn m0 -addnA; congr (_ + _)%N.
by case: (T %% m == 0)%N.
Qed.

Lemma recordedS n T :
  recorded n T.+1
    = recorded n T ++ (if (T %% (2 * n))%N == 0%N then [:: T] else [::]).
Proof. by rewrite /recorded -[T.+1]addn1 iotaD filter_cat add0n. Qed.

Lemma size_recorded n T :
  (0 < n)%N -> size (recorded n T) = ceil_div T (2 * n).
Proof.
move=> n0; have m0 : (0 < 2 * n)%N by rewrite muln_gt0.
elim: T => [|T IH]; first by rewrite /ceil_div /= divn_small // prednK.
rewrite recordedS size_cat IH ceil_divS //.
by case: (_ == _).
Qed.

(** A loop that appends the current value of [cur] to [hist] exactly at
    the iterations whose counter is a multiple of [2n]. *)
Lemma iteri_recorded (S A : Type) (body : nat -> S -> S)
    (hist : S -> seq A) (cur : S -> A) n :
  (forall t s, hist (body t s)
     = if (t %% (2 * n))%N == 0%N then rcons (hist s) (cur (body t s))
       else hist s) ->
  forall T s0,
    hist (iteri T body s0)
    = hist s0 ++ [seq cur (iteri t.+1 body s0) | t <- recorded n T].
Proof.
move=> Hb T s0; elim: T => [|T IH]; first by rewrite /= cats0.
rewrite recordedS map_cat catA -IH [iteri T.+1 _ _]/= Hb.
by case: (_ == _); rewrite /= ?cats0 // cats1.
Qed.

End Recording.

Section RecordingLoops.
Variable F : realFieldType.
Variables n p : nat.
Variable o : oracle F n p.
Variable step_size : F.

Lemma sgd_body_history t i (s : SGD.state F p) :
  let s' := SGD.body o step_size t i s in
  let rec := (t %% (2 * n))%N == 0%N in
  [/\ SGD.theta_SGD_history s'
        = if rec then rcons (SGD.theta_SGD_history s) (SGD.theta s')
          else SGD.theta_SGD_history s,
      SGD.f_SGD_history s'
        = if rec then rcons (SGD.f_SGD_history s) (f o (SGD.theta s'))
          else SGD.f_SGD_history s,
      SGD.theta_averaged_history s'
        = if rec
          then rcons (SGD.theta_averaged_history s) (SGD.theta_averaged s')
          else SGD.theta_averaged_history s
    & SGD.f_averaged_history s'
        = if rec
          then rcons (SGD.f_averaged_history s) (f o (SGD.theta_averaged s'))
          else SGD.f_averaged_history s].
Proof. by rewrite /SGD.body; case: ifP. Qed.

Lemma saga_body_history t i (s : SAGA.state F n p) :
  let s' := SAGA.body o step_size t i s in
  let rec := (t %% (2 * n))%N == 0%N in
  SAGA.theta_history s'
    = (if rec then rcons (SAGA.theta_history s) (SAGA.theta s')
       else SAGA.theta_history s)
  /\ SAGA.f_history s'
    = (if rec then rcons (SAGA.f_history s) (f o (SAGA.theta s'))
       else SAGA.f_history s).
Proof. by []. Qed.

End RecordingLoops.

(** C10: in the SGD and SAGA loops run for [T] iterations over [n] data,
    the histories receive the current iterate and its objective value
    exactly at the iterations [t < T] with [t mod 2n = 0], in order; they
    therefore hold [ceil(T / 2n)] entries, and the iterates in between are
    not kept. *)
Theorem history_recorded_every_2n (F : realFieldType) n p
    (o : oracle F n p) (step_size : F) (Rng : Type)
    (randint : Rng -> 'I_n * Rng)
    (T : nat) (theta0 theta_averaged0 : 'cV[F]_p) (g0 : Rng) :
  let sgd t :=
    (SGD.run o step_size randint t (SGD.init theta0 theta_averaged0) g0).1 in
  let saga t := (SAGA.run o step_size randint t (SAGA.init n theta0) g0).1 in
  [/\ [/\ SGD.theta_SGD_history (sgd T)
            = [seq SGD.theta (sgd t.+1) | t <- recorded n T],
          SGD.f_SGD_history (sgd T)
            = [seq f o (SGD.theta (sgd t.+1)) | t <- recorded n T],
          SGD.theta_averaged_history (sgd T)
            = [seq SGD.theta_averaged (sgd t.+1) | t <- recorded n T]
        & SGD.f_averaged_history (sgd T)
            = [seq f o (SGD.theta_averaged (sgd t.+1)) | t <- recorded n T]],
      SAGA.theta_history (saga T)
        = [seq SAGA.theta (saga t.+1) | t <- recorded n T]
      /\ SAGA.f_history (saga T)
        = [seq f o (SAGA.theta (saga t.+1)) | t <- recorded n T],
      recorded n T = [seq t <- iota 0 T | (t %% (2 * n))%N == 0%N]
    & size (SGD.theta_SGD_history (sgd T)) = ceil_div T (2 * n)
      /\ size (SAGA.theta_history (saga T)) = ceil_div T (2 * n)].
Proof.
move=> sgd saga.
pose d := drawn randint g0.
have Esgd t : sgd t = iteri t (fun t => SGD.body o step_size t (d t))
                        (SGD.init theta0 theta_averaged0).
  by rewrite /sgd /SGD.run iteri_draw_then.
have Esaga t : saga t = iteri t (fun t => SAGA.body o step_size t (d t))
                          (SAGA.init n theta0).
  by rewrite /saga /SAGA.run iteri_draw_then.
have Hsgd (A : Type) (hist : SGD.state F p -> seq A) cur :
    (forall t i s, hist (SGD.body o step_size t i s)
       = if (t %% (2 * n))%N == 0%N
         then rcons (hist s) (cur (SGD.body o step_size t i s))
         else hist s) ->
    hist (SGD.init theta0 theta_averaged0) = [::] ->
    hist (sgd T) = [seq cur (sgd t.+1) | t <- recorded n T].
  move=> Hb H0; rewrite Esgd (iteri_recorded (cur := cur) (n := n)) ?H0 //=.
  by apply: eq_map => t; rewrite Esgd.
have Hsaga (A : Type) (hist : SAGA.state F n p -> seq A) cur :
    (forall t i s, hist (SAGA.body o step_size t i s)
       = if (t %% (2 * n))%N == 0%N
         then rcons (hist s) (cur (SAGA.body o step_size t i s))
         else hist s) ->
    hist (SAGA.init n theta0) = [::] ->
    hist (saga T) = [seq cur (saga t.+1) | t <- recorded n T].
  move=> Hb H0; rewrite Esaga (iteri_recorded (cur := cur) (n := n)) ?H0 //=.
  by apply: eq_map => t; rewrite Esaga.
have E1 : SGD.theta_SGD_history (sgd T)
            = [seq SGD.theta (sgd t.+1) | t <- recorded n T].
  by apply: Hsgd => // t i s; case: (sgd_body_history o step_size t i s).
have E2 : SAGA.theta_history (saga T)
            = [seq SAGA.theta (saga t.+1) | t <- recorded n T].
  by apply: Hsaga => // t i s; case: (saga_body_history o step_size t i s).
split=> //.
- split=> //.
  + apply: (Hsgd _ (fun s => SGD.f_SGD_history s)
              (fun s => f o (SGD.theta s))) => // t i s.
    by case: (sgd_body_history o step_size t i s).
  + apply: Hsgd => // t i s.
    by case: (sgd_body_history o step_size t i s).
  + apply: (Hsgd _ (fun s => SGD.f_averaged_history s)
              (fun s => f o (SGD.theta_averaged s))) => // t i s.
    by case: (sgd_body_history o step_size t i s).
- split=> //.
  by apply: (Hsaga _ (fun s => SAGA.f_history s)
               (fun s => f o (SAGA.theta s))).
- by rewrite E1 E2 !size_map size_recorded // (randint_pos randint g0).
Qed.

(** ** SVRG: one epoch *)

Section SvrgEpoch.
Variable F : realFieldType.
Variables n p : nat.
Variable o : oracle F n p.
Variable step_size : F.
Variable K : nat.
Variable theta_hat0 : 'cV[F]_p.
Variable H0 : 'M[F]_(K, p).
Variable log0 : seq (SVRG.oracle_call F n p).
Variable d : nat -> 'I_n.

Local Notation ibody :=
  (SVRG.inner_body o step_size theta_hat0 (full_grad_f o theta_hat0)).
Local Notation iter := (SVRG.inner_iterate o step_size theta_hat0 d).

(** The inner loop after [k] rounds, the [j]-th draw returning [d j]. *)
Local Notation inner k :=
  (iteri k (fun j => ibody j (d j)) (SVRG.Inner theta_hat0 H0 log0)).

Lemma getrow_setrow_nat m (A : 'M[F]_(m, p)) (k : nat) (r : 'I_m) v :
  Np.getrow (Np.setrow A k v) r = if (r : nat) == k then v else Np.getrow A r.
Proof.
apply/matrixP => c e; rewrite /Np.getrow /Np.setrow !mxE (ord1 e).
by case: (_ == _); rewrite ?mxE.
Qed.

Lemma inner_iterateP k : SVRG.theta (inner k) = iter k.
Proof. by elim: k => [|k IH] //; rewrite iteriS [iter k.+1]/= -IH. Qed.

Lemma inner_body_history k i (s : SVRG.inner_state F n p K) :
  SVRG.inner_history (ibody k i s)
    = Np.setrow (SVRG.inner_history s) k (SVRG.theta (ibody k i s)).
Proof. by []. Qed.

Lemma inner_historyP k (r : 'I_K) :
  Np.getrow (SVRG.inner_history (inner k)) r
    = if (r < k)%N then iter r.+1 else Np.getrow H0 r.
Proof.
elim: k => [|k IH] //.
rewrite iteriS inner_body_history getrow_setrow_nat.
rewrite ltnS leq_eqVlt; case: eqP => [->|_]; last exact: IH.
by rewrite -(inner_iterateP k.+1) iteriS.
Qed.

Lemma inner_callsP k :
  exists2 l, SVRG.inner_calls (inner k) = log0 ++ l
           & ~~ has (@SVRG.is_full F n p) l /\ size l = (2 * k)%N.
Proof.
elim: k => [|k [l El [Hl Sl]]]; first by exists [::]; rewrite ?cats0.
rewrite iteriS /SVRG.inner_body /=.
exists (l ++ [:: SVRG.DatumGrad (SVRG.theta (inner k)) (d k);
                 SVRG.DatumGrad theta_hat0 (d k)]).
  by rewrite El -!cats1 -!catA.
by rewrite has_cat negb_or Hl size_cat Sl mulnS addnC.
Qed.

Lemma mean0_inner_history :
  Np.mean0 (SVRG.inner_history (inner K)) = K%:R^-1 *: \sum_(k < K) iter k.+1.
Proof.
rewrite /Np.mean0; congr (_ *: _); apply: eq_bigr => r _.
by rewrite inner_historyP ltn_ord.
Qed.

End SvrgEpoch.

Section SvrgRun.
Variable F : realFieldType.
Variables n p : nat.
Variable o : oracle F n p.
Variable step_size : F.
Variable K : nat.
Variable Rng : Type.
Variable randint : Rng -> 'I_n * Rng.

Local Notation epoch := (SVRG.epoch o step_size randint).
Local Notation run := (SVRG.run o step_size randint).

(** An epoch in terms of the loop over the indices drawn. *)
Lemma svrg_epochE t (s : SVRG.state F n p K) g :
  let theta_hat := SVRG.theta_hat s in
  let s1 :=
    iteri K (fun j => SVRG.inner_body o step_size theta_hat
                        (full_grad_f o theta_hat) j (drawn randint g j))
          (SVRG.Inner theta_hat (SVRG.theta_history s)
             (rcons (SVRG.calls s) (SVRG.FullGrad n theta_hat))) in
  epoch t (s, g)
  = (SVRG.State (Np.mean0 (SVRG.inner_history s1)) (SVRG.inner_history s1)
       (rcons (SVRG.f_SVRG_history s)
              (f o (Np.mean0 (SVRG.inner_history s1))))
       (SVRG.inner_calls s1),
     rng_after randint g K).
Proof. by rewrite /SVRG.epoch /SVRG.call_full_grad_f iteri_draw_then. Qed.

Lemma svrg_epoch_rng t (s : SVRG.state F n p K) g :
  (epoch t (s, g)).2 = rng_after randint g K.
Proof. by rewrite svrg_epochE. Qed.

Lemma svrg_run_rng T (s0 : SVRG.state F n p K) g :
  (run T s0 g).2 = rng_after randint g (T * K).
Proof.
rewrite /SVRG.run; elim: T => [|T IH] //.
rewrite iteriS; case: (iteri T _ _) IH => s g1 IH.
by rewrite svrg_epoch_rng -[g1]/((s, g1).2) IH rng_afterD mulSn addnC.
Qed.

End SvrgRun.

(** C4: one SVRG epoch evaluates the full gradient once, at the snapshot
    and before any inner step; its [K] inner steps evaluate only per-datum
    gradients and follow
    [theta <- theta - gamma * (grad_f(theta, i) - grad_f(theta_hat, i)
                               + full_grad_f(theta_hat))];
    the next snapshot is the mean of the [K] inner iterates. *)
Theorem svrg_epoch_one_full_gradient (F : realFieldType) n p
    (o : oracle F n p) (step_size : F) (K : nat) (Rng : Type)
    (randint : Rng -> 'I_n * Rng) (t : nat) (s : SVRG.state F n p K)
    (g : Rng) :
  (0 < K)%N ->
  let s' := (SVRG.epoch o step_size randint t (s, g)).1 in
  let theta_hat := SVRG.theta_hat s in
  let i := drawn randint g in
  let iter := SVRG.inner_iterate o step_size theta_hat i in
  [/\ exists2 inner_log,
        SVRG.calls s'
          = SVRG.calls s ++ SVRG.FullGrad n theta_hat :: inner_log
        & ~~ has (@SVRG.is_full F n p) inner_log
          /\ size inner_log = (2 * K)%N,
      count (@SVRG.is_full F n p) (SVRG.calls s')
        = (count (@SVRG.is_full F n p) (SVRG.calls s)).+1,
      iter 0%N = theta_hat
      /\ forall k,
           iter k.+1
           = iter k - step_size *:
               (grad_f o (iter k) (i k) - grad_f o theta_hat (i k)
                + full_grad_f o theta_hat),
      forall k : 'I_K, Np.getrow (SVRG.theta_history s') k = iter k.+1
    & SVRG.theta_hat s' = K%:R^-1 *: \sum_(k < K) iter k.+1
      /\ (SVRG.epoch o step_size randint t (s, g)).2 = rng_after randint g K].
Proof.
move=> _ s' theta_hat i iter.
have [l El [Hl Sl]] :=
  inner_callsP o step_size theta_hat (SVRG.theta_history s)
    (rcons (SVRG.calls s) (SVRG.FullGrad n theta_hat)) i K.
have Ec : SVRG.calls s'
            = SVRG.calls s ++ SVRG.FullGrad n theta_hat :: l.
  by rewrite /s' svrg_epochE /= El -cats1 -catA.
split=> //.
- by exists l.
- move: Hl; rewrite has_count -leqNgt leqn0 => /eqP Hl.
  by rewrite Ec count_cat /= Hl addn0 addn1.
- by move=> k; rewrite /s' svrg_epochE /= inner_historyP ltn_ord.
- by rewrite /s' svrg_epochE /= mean0_inner_history.
Qed.

Lemma svrg_epoch_one_full_gradient_witness :
  count (@SVRG.is_full rat 2 1)
    (SVRG.calls (SVRG.epoch ls21 (1 / 4) alternate 0
                   (SVRG.init 2 3 (const_mx 0), 0%N)).1)
  = 1%N.
Proof.
have [_ -> _ _ _] :=
  @svrg_epoch_one_full_gradient _ _ _ ls21 (1 / 4) 3 _ alternate 0
    (SVRG.init 2 3 (const_mx 0)) 0%N isT.
by [].
Defined.

(** ** The SGD cells and the kernel namespace *)

Section KernelCells.
Variable F : realFieldType.
Variables n p : nat.
Variable o : oracle F n p.
Variable step_size : F.
Variable Rng : Type.
Variable randint : Rng -> 'I_n * Rng.

Local Notation body := (Kernel.sgd_body o step_size randint).
Local Notation loop T := (Kernel.for_range T body).

Lemma for_rangeS (T : nat) (b : nat -> Kernel.cell F p Rng unit) :
  Kernel.for_range T.+1 b
  = Kernel.bind (Kernel.for_range T b) (fun _ => b T).
Proof. by []. Qed.

(** On a namespace in which every name is bound, the body of the cell is
    the body of the loop [SGD.body]. *)
Lemma sgd_body_bound t (s : SGD.state F p) g :
  body t (Kernel.names_of s, g)
  = inr (tt, ((Kernel.names_of (draw_then randint (SGD.body o step_size) t (s, g)).1),
              (draw_then randint (SGD.body o step_size) t (s, g)).2)).
Proof.
rewrite /Kernel.sgd_body /Kernel.bind /Kernel.np_randint /draw_then /=.
case: (randint g) => i g' /=.
by rewrite /SGD.body; case: ifP.
Qed.

Lemma sgd_loop_bound T (s : SGD.state F p) g :
  loop T (Kernel.names_of s, g)
  = inr (tt, (Kernel.names_of (SGD.run o step_size randint T s g).1,
              (SGD.run o step_size randint T s g).2)).
Proof.
elim: T => [|T IH] //.
rewrite for_rangeS /Kernel.bind IH sgd_body_bound /SGD.run iteriS.
by rewrite -surjective_pairing.
Qed.

(** On a namespace in which [theta_averaged] is unbound, the first round
    raises, and so does the loop. *)
Lemma sgd_body_unbound t (k : Kernel.names F p) g :
  Kernel.theta k != None -> Kernel.theta_averaged k = None ->
  body t (k, g) = inl (Kernel.NameError Kernel.ThetaAveraged).
Proof.
case: k => [[th|] ta h1 h2 h3 h4] //= _ ->.
rewrite /Kernel.sgd_body /Kernel.bind /Kernel.np_randint /=.
by case: (randint g).
Qed.

Lemma sgd_loop_unbound T (k : Kernel.names F p) g :
  Kernel.theta k != None -> Kernel.theta_averaged k = None ->
  loop T.+1 (k, g) = inl (Kernel.NameError Kernel.ThetaAveraged).
Proof.
move=> th ta; elim: T => [|T IH].
  by rewrite for_rangeS /Kernel.bind /= sgd_body_unbound.
by rewrite for_rangeS /Kernel.bind IH.
Qed.

(** The first round multiplies [theta_averaged] by [t = 0]: the value it
    held before the loop does not reach the state. *)
Lemma sgd_body0_average i (theta0 a a' : 'cV[F]_p) :
  SGD.body o step_size 0 i (SGD.init theta0 a)
    = SGD.body o step_size 0 i (SGD.init theta0 a').
Proof. by rewrite /SGD.body /= !scale0r. Qed.

Lemma sgd_run_average T (theta0 a a' : 'cV[F]_p) g :
  SGD.run o step_size randint T.+1 (SGD.init theta0 a) g
  = SGD.run o step_size randint T.+1 (SGD.init theta0 a') g.
Proof.
rewrite /SGD.run !iteri_draw_then; congr (_, _).
elim: T => [|T IH]; first exact: sgd_body0_average.
by rewrite [LHS]iteriS [RHS]iteriS IH.
Qed.

Section Preludes.
Variable randn : Rng -> 'cV[F]_p * Rng.

(** The namespace the loop of each cell starts in. *)
Lemma logistic_cellE T (k : Kernel.names F p) g :
  Kernel.sgd_cell_logistic o step_size randint randn T (k, g)
  = loop T (Kernel.Names (Some (randn g).1) (Kernel.theta_averaged k)
              (Some [::]) (Some [::]) (Some [::]) (Some [::]),
            (randn g).2).
Proof.
rewrite /Kernel.sgd_cell_logistic /Kernel.empty_histories /Kernel.bind.
by rewrite /Kernel.np_randn /Kernel.write /=; case: (randn g).
Qed.

Lemma least_squares_cellE T (k : Kernel.names F p) g :
  Kernel.sgd_cell_least_squares o step_size randint randn T (k, g)
  = loop T (Kernel.names_of
              (SGD.init (randn g).1 (randn (randn g).2).1),
            (randn (randn g).2).2).
Proof.
rewrite /Kernel.sgd_cell_least_squares /Kernel.empty_histories /Kernel.bind.
rewrite /Kernel.np_randn /Kernel.write /=; case: (randn g) => th0 g1 /=.
by case: (randn g1).
Qed.

End Preludes.

End KernelCells.

(** C9: the logistic SGD cell reads [theta_averaged] before any of its
    lines binds it.  In a kernel where the name is unbound the cell raises
    [NameError] in its first round; in a kernel where it is bound, to any
    value, the cell completes, and leaves the state of the SGD loop
    started from the drawn [theta].  The least-squares cell, which binds
    both names, completes from every kernel.  So two runs of the logistic
    cell on the same data, from the same generator state, hence with the
    same initial point, differ with the kernel they start in. *)
Theorem logistic_sgd_cell_reads_unbound_name (F : realFieldType) n p
    (o : oracle F n p) (step_size : F) (Rng : Type)
    (randint : Rng -> 'I_n * Rng) (randn : Rng -> 'cV[F]_p * Rng)
    (max_iter : nat) (k : Kernel.names F p) (g : Rng) :
  (0 < max_iter)%N ->
  let logistic := Kernel.sgd_cell_logistic o step_size randint randn in
  let least_squares :=
    Kernel.sgd_cell_least_squares o step_size randint randn in
  let sgd theta0 a g' :=
    SGD.run o step_size randint max_iter (SGD.init theta0 a) g' in
  let theta0 := (randn g).1 in
  let g1 := (randn g).2 in
  [/\ Kernel.theta_averaged k = None ->
        logistic max_iter (k, g)
        = inl (Kernel.NameError Kernel.ThetaAveraged),
      forall a, Kernel.theta_averaged k = Some a ->
        logistic max_iter (k, g)
        = inr (tt, (Kernel.names_of (sgd theta0 0 g1).1, (sgd theta0 0 g1).2))
    & least_squares max_iter (k, g)
      = inr (tt, (Kernel.names_of (sgd theta0 (randn g1).1 (randn g1).2).1,
                  (sgd theta0 (randn g1).1 (randn g1).2).2))].
Proof.
case: max_iter => [|T] // _ logistic least_squares sgd theta0 g1; split.
- by move=> ta; rewrite /logistic logistic_cellE ta sgd_loop_unbound.
- move=> a ta; rewrite /logistic logistic_cellE ta.
  by rewrite -/(Kernel.names_of (SGD.init _ a)) sgd_loop_bound
             (sgd_run_average _ _ _ _ _ a 0).
- by rewrite /least_squares least_squares_cellE sgd_loop_bound.
Qed.

(** A fresh kernel, and one in which an earlier cell left
    [theta_averaged = [7]]; two data with one feature, the generator that
    hands out the indices [0, 1, 0, ...] and the vectors [[g]] for its
    state [g]; the values of [exp] and [log] play no part. *)
Lemma logistic_sgd_cell_reads_unbound_name_witness :
  let o := logistic_oracle (fun z => 1 + z ^+ 2) (fun z => z) X21 labels21 in
  let randn := fun g : nat => (const_mx g%:R : 'cV[rat]_1, g.+1) in
  let logistic := Kernel.sgd_cell_logistic o (1 / 4) alternate randn 3 in
  let fresh := Kernel.Names None None None None None None in
  let stale := Kernel.Names None (Some (const_mx 7)) None None None None in
  logistic (fresh, 0%N) = inl (Kernel.NameError Kernel.ThetaAveraged)
  /\ logistic (stale, 0%N)
     = inr (tt,
            (Kernel.names_of
               (SGD.run o (1 / 4) alternate 3
                  (SGD.init (const_mx 0) 0) 1%N).1,
             (SGD.run o (1 / 4) alternate 3
                (SGD.init (const_mx 0) 0) 1%N).2)).
Proof.
move=> o randn logistic fresh stale.
have [H1 _ _] :=
  @logistic_sgd_cell_reads_unbound_name _ _ _ o (1 / 4) _ alternate randn 3
    fresh 0%N isT.
have [_ H2 _] :=
  @logistic_sgd_cell_reads_unbound_name _ _ _ o (1 / 4) _ alternate randn 3
    stale 0%N isT.
by split; [exact: H1 | exact: (H2 (const_mx 7))].
Defined.

(** ** ADMM: the rho-update *)

Section RhoUpdate.
Variable F : realFieldType.

Lemma pos_sub_pos (x : F) : ADMM.pos x - ADMM.pos (- x) = x.
Proof. by rewrite /ADMM.pos /Num.max; case: ifP; case: ifP; lra. Qed.

(** The closed form written in the notebook does not threshold: its two
    positive parts are those of opposite numbers, so it is a shift by
    [tau / lam]. *)
Lemma rho_update_shift p (lam tau : F) (theta u : 'cV[F]_p) :
  ADMM.rho_update lam tau theta u = theta + u - const_mx (tau / lam).
Proof.
apply/matrixP => j k; rewrite !mxE (ord1 k).
have -> : tau / lam - theta j 0 - u j 0 = - (theta j 0 + u j 0 - tau / lam).
  by ring.
by rewrite pos_sub_pos.
Qed.

(** The soft threshold in terms of positive parts: the second positive
    part is that of [- v - k]. *)
Lemma soft_threshold_pos p (k : F) (v : 'cV[F]_p) j :
  0 <= k ->
  soft_threshold k v j 0 = ADMM.pos (v j 0 - k) - ADMM.pos (- v j 0 - k).
Proof.
move=> k0; rewrite /soft_threshold mxE /ADMM.pos /Num.max.
case: (ltrgt0P (v j 0)) => [v0|v0|->].
- rewrite gtr0_sg // mul1r.
  by do ?case: ifP; lra.
- rewrite ltr0_sg // mulN1r.
  by do ?case: ifP; lra.
- rewrite sgr0 mul0r oppr0 !add0r.
  by do ?case: ifP; lra.
Qed.

(** One coordinate of the rho-subproblem, with [lam = tau * k]: the soft
    threshold of [v] at [k] minimises [tau k |r| + tau/2 (r - v)^2]. *)
Lemma soft_threshold_scalar_min_k (tau k v r : F) :
  0 < tau -> 0 <= k ->
  tau * k * `|Num.sg v * Num.max (`|v| - k) 0|
  + tau / 2 * (Num.sg v * Num.max (`|v| - k) 0 - v) ^+ 2
  <= tau * k * `|r| + tau / 2 * (r - v) ^+ 2.
Proof.
move=> tau0 k0; set s := Num.sg v * _.
have t2 : 0 <= tau / 2 by rewrite divr_ge0 // ltW.
have tk : 0 <= tau * k by rewrite mulr_ge0 // ltW.
have ra : r <= `|r| by exact: ler_norm.
have nra : - r <= `|r| by rewrite -normrN; exact: ler_norm.
have [small|big] := lerP `|v| k.
- have -> : s = 0.
    rewrite /s /Num.max; case: ifP => [_|/negbT]; first by rewrite mulr0.
    rewrite -leNgt => big; have -> : `|v| - k = 0 by lra.
    by rewrite mulr0.
  rewrite normr0 mulr0 add0r sub0r sqrrN -subr_ge0.
  have -> : tau * k * `|r| + tau / 2 * (r - v) ^+ 2 - tau / 2 * v ^+ 2
            = tau * (k * `|r| - r * v) + tau / 2 * r ^+ 2 by field.
  apply: addr_ge0; last by rewrite mulr_ge0 // sqr_ge0.
  rewrite mulr_ge0 ?(ltW tau0) // subr_ge0.
  apply: le_trans (ler_norm _) _; rewrite normrM mulrC.
  by rewrite ler_wpM2r.
- have [v0|v0] := lerP 0 v.
  + have vk : k < v by rewrite -(ger0_norm v0).
    have Es : s = v - k.
      rewrite /s /Num.max (gtr0_sg (le_lt_trans k0 vk)).
      by rewrite (ger0_norm v0) mul1r; case: ifP => //; lra.
    have s0 : 0 <= v - k by lra.
    rewrite Es (ger0_norm s0) -subr_ge0.
    have -> : tau * k * `|r| + tau / 2 * (r - v) ^+ 2
              - (tau * k * (v - k) + tau / 2 * (v - k - v) ^+ 2)
              = tau * k * (`|r| - r) + tau / 2 * (r - v + k) ^+ 2 by field.
    apply: addr_ge0; last by rewrite mulr_ge0 // sqr_ge0.
    by rewrite mulr_ge0 // subr_ge0.
  + have vk : k < - v by rewrite -(ltr0_norm v0).
    have Es : s = v + k.
      rewrite /s /Num.max (ltr0_sg v0) (ltr0_norm v0) mulN1r.
      by case: ifP => //; lra.
    have s0 : v + k < 0 by lra.
    rewrite Es (ltr0_norm s0) -subr_ge0.
    have -> : tau * k * `|r| + tau / 2 * (r - v) ^+ 2
              - (tau * k * - (v + k) + tau / 2 * (v + k - v) ^+ 2)
              = tau * k * (`|r| + r) + tau / 2 * (r - v - k) ^+ 2 by field.
    apply: addr_ge0; last by rewrite mulr_ge0 // sqr_ge0.
    by rewrite mulr_ge0 // -[r]opprK subr_ge0 opprK.
Qed.

Lemma soft_threshold_scalar_min (lam tau v r : F) :
  0 <= lam -> 0 < tau ->
  lam * `|Num.sg v * Num.max (`|v| - lam / tau) 0|
  + tau / 2 * (Num.sg v * Num.max (`|v| - lam / tau) 0 - v) ^+ 2
  <= lam * `|r| + tau / 2 * (r - v) ^+ 2.
Proof.
move=> lam0 tau0.
have k0 : 0 <= lam / tau by rewrite divr_ge0 // ltW.
have Elam : lam = tau * (lam / tau) by rewrite mulrC divfK // gt_eqF.
rewrite [X in X * _ + _ <= _]Elam [X in _ <= X * _ + _]Elam.
exact: soft_threshold_scalar_min_k.
Qed.

End RhoUpdate.

(** The rho-subproblem stated in the notebook is solved by the soft
    threshold at [lam / tau]. *)
Lemma soft_threshold_is_argmin (F : realFieldType) p (lam tau : F)
    (theta u : 'cV[F]_p) :
  0 <= lam -> 0 < tau ->
  is_argmin (ADMM.rho_objective lam tau theta u)
            (soft_threshold (lam / tau) (theta + u)).
Proof.
move=> lam0 tau0 r.
rewrite /ADMM.rho_objective /ADMM.l1norm /Np.sqnorm !mulr_sumr -!big_split /=.
apply: ler_sum => j _; rewrite /soft_threshold !mxE.
have -> : Num.sg (theta j 0 + u j 0)
            * Num.max (`|theta j 0 + u j 0| - lam / tau) 0
          - theta j 0 - u j 0
          = Num.sg (theta j 0 + u j 0)
            * Num.max (`|theta j 0 + u j 0| - lam / tau) 0
          - (theta j 0 + u j 0) by rewrite opprD addrA.
have -> : r j 0 - theta j 0 - u j 0 = r j 0 - (theta j 0 + u j 0).
  by rewrite opprD addrA.
exact: soft_threshold_scalar_min.
Qed.

(** C3: at [lam = tau = 1], [theta = [1/2]], [u = [0]] the closed form of
    the notebook returns [-1/2], where the soft threshold at
    [lam / tau = 1] of [theta + u] is [0]. *)
Theorem rho_update_at_half :
  ADMM.rho_update 1 1 (const_mx (1 / 2) : 'cV[rat]_1) 0 = const_mx (- (1 / 2))
  /\ soft_threshold (1 / 1) (const_mx (1 / 2) + 0 : 'cV[rat]_1) = 0.
Proof.
have half0 : (0 : rat) < 1 / 2 by lra.
split; apply/matrixP => j k; rewrite !mxE.
- rewrite /ADMM.pos /Num.max.
  have -> : (1 / 2 + 0 - 1 / 1 < 0 :> rat) = true by lra.
  have -> : (1 / 1 - 1 / 2 - 0 < 0 :> rat) = false by lra.
  by lra.
- rewrite addr0 (gtr0_sg half0) mul1r (gtr0_norm half0) /Num.max.
  have -> : (1 / 2 - 1 / 1 < 0 :> rat) = true by lra.
  by [].
Qed.

(** ** ADMM: the theta-update *)

Section InnerProducts.
Variable F : realFieldType.

Lemma sqnormD m (a b : 'cV[F]_m) :
  Np.sqnorm (a + b) = Np.sqnorm a + 2 * Np.inner a b + Np.sqnorm b.
Proof.
rewrite /Np.sqnorm /Np.inner mulr_sumr -!big_split /=.
by apply: eq_bigr => i _; rewrite !mxE; ring.
Qed.

Lemma sqnorm_ge0 m (a : 'cV[F]_m) : 0 <= Np.sqnorm a.
Proof. by apply: sumr_ge0 => i _; exact: sqr_ge0. Qed.

Lemma sqnorm_eq0 m (a : 'cV[F]_m) : Np.sqnorm a = 0 -> a = 0.
Proof.
move=> a0; apply/matrixP => i j; rewrite (ord1 j) mxE.
have /(_ i isT) /eqP := psumr_eq0P (fun i _ => sqr_ge0 (a i 0)) a0.
by rewrite sqrf_eq0 => /eqP.
Qed.

Lemma innerDr m (d a b : 'cV[F]_m) :
  Np.inner d (a + b) = Np.inner d a + Np.inner d b.
Proof.
rewrite /Np.inner -big_split /=.
by apply: eq_bigr => i _; rewrite !mxE mulrDr.
Qed.

Lemma innerZr m (c : F) (d a : 'cV[F]_m) :
  Np.inner d (c *: a) = c * Np.inner d a.
Proof.
rewrite /Np.inner mulr_sumr.
by apply: eq_bigr => i _; rewrite !mxE mulrCA.
Qed.

Lemma innerNr m (d a : 'cV[F]_m) : Np.inner d (- a) = - Np.inner d a.
Proof. by rewrite -scaleN1r innerZr mulN1r. Qed.

Lemma inner0r m (d : 'cV[F]_m) : Np.inner d 0 = 0.
Proof. by rewrite /Np.inner big1 // => i _; rewrite [X in _ * X]mxE mulr0. Qed.

Lemma innerC m (a b : 'cV[F]_m) : Np.inner a b = Np.inner b a.
Proof. by apply: eq_bigr => i _; rewrite mulrC. Qed.

Lemma inner_self m (a : 'cV[F]_m) : Np.inner a a = Np.sqnorm a.
Proof. by apply: eq_bigr => i _; rewrite expr2. Qed.

Lemma inner_mulmx n p (A : 'M[F]_(n, p)) (d : 'cV[F]_p) (w : 'cV[F]_n) :
  Np.inner (A *m d) w = Np.inner d (A^T *m w).
Proof.
rewrite /Np.inner.
rewrite (eq_bigr (fun i => \sum_j A i j * d j 0 * w i 0)) => [i _|].
  by rewrite mxE mulr_suml.
rewrite exchange_big /=; apply: eq_bigr => j _.
rewrite mxE mulr_sumr; apply: eq_bigr => i _.
by rewrite !mxE; ring.
Qed.

End InnerProducts.

Section ThetaUpdate.
Variable F : realFieldType.
Variables n p : nat.
Variable X : 'M[F]_(n, p).
Variable y : 'cV[F]_n.
Variable tau : F.
Variables rho u : 'cV[F]_p.
Hypothesis tau0 : 0 < tau.

Let A : 'M[F]_p := n%:R^-1 *: (X^T *m X) + tau%:M.
Let b : 'cV[F]_p := n%:R^-1 *: (X^T *m y) + tau *: (rho - u).

Local Notation obj := (ADMM.theta_objective X y tau rho u).

(** The objective around any point: a linear term in the displacement
    [d], and a non-negative quadratic term. *)
Lemma theta_objective_expand (theta d : 'cV[F]_p) :
  obj (theta + d)
  = obj theta + Np.inner d (A *m theta - b)
    + ((2 * n%:R)^-1 * Np.sqnorm (X *m d) + tau / 2 * Np.sqnorm d).
Proof.
rewrite /ADMM.theta_objective /A /b.
have -> : X *m (theta + d) - y = (X *m theta - y) + X *m d.
  by rewrite mulmxDr addrAC.
have -> : theta + d - rho + u = (theta - rho + u) + d.
  by rewrite -!addrA [d + _]addrC !addrA.
rewrite (sqnormD (X *m theta - y)) (sqnormD (theta - rho + u)).
rewrite mulmxDl -scalemxAl mul_scalar_mx.
have -> : n%:R^-1 *: (X^T *m X *m theta) + tau *: theta
          - (n%:R^-1 *: (X^T *m y) + tau *: (rho - u))
          = n%:R^-1 *: (X^T *m (X *m theta - y)) + tau *: (theta - rho + u).
  rewrite mulmxBr mulmxA.
  move: (X^T *m X *m theta) (X^T *m y) => a c.
  by apply/matrixP => i j; rewrite !mxE; ring.
rewrite innerDr !innerZr -inner_mulmx [Np.inner (X *m d) _]innerC.
rewrite [Np.inner d (theta - rho + u)]innerC invfM.
by move: (n%:R^-1) => N; field.
Qed.

Lemma theta_matrix_sym : A^T = A.
Proof.
by rewrite /A linearD linearZ /= trmx_mul trmxK tr_scalar_mx.
Qed.

Lemma theta_quadratic (d : 'cV[F]_p) :
  Np.inner d (A *m d) = n%:R^-1 * Np.sqnorm (X *m d) + tau * Np.sqnorm d.
Proof.
rewrite /A mulmxDl -scalemxAl mul_scalar_mx innerDr !innerZr inner_self.
by rewrite -mulmxA -inner_mulmx inner_self.
Qed.

(** For [tau > 0] the matrix inverted by the theta-update is invertible. *)
Lemma theta_matrix_unit : A \in unitmx.
Proof.
rewrite -row_free_unit -kermx_eq0; apply/rowV0P => v /sub_kermxP vA.
have Ad : A *m v^T = 0 by rewrite -theta_matrix_sym -trmx_mul vA trmx0.
have := theta_quadratic v^T; rewrite Ad.
rewrite inner0r => E; apply: trmx_inj; rewrite trmx0; apply: sqnorm_eq0.
have N0 : 0 <= n%:R^-1 * Np.sqnorm (X *m v^T).
  by rewrite mulr_ge0 ?sqnorm_ge0 // invr_ge0 ler0n.
have S0 := sqnorm_ge0 v^T.
apply/eqP; rewrite eq_le S0 andbT -(pmulr_rle0 _ tau0).
by rewrite -(lerD2l (n%:R^-1 * Np.sqnorm (X *m v^T))) -E addr0.
Qed.

Lemma theta_solve_normal : A *m theta_solve X y tau rho u = b.
Proof. by rewrite /theta_solve -/A -/b (mulKVmx theta_matrix_unit). Qed.

(** The update without the leading [1/n] solves the theta-subproblem. *)
Lemma theta_solve_is_argmin : is_argmin obj (theta_solve X y tau rho u).
Proof.
move=> theta'; set theta := theta_solve X y tau rho u.
have -> : theta' = theta + (theta' - theta) by rewrite addrC subrK.
rewrite theta_objective_expand theta_solve_normal subrr inner0r.
rewrite addr0 lerDl addr_ge0 // mulr_ge0 ?sqnorm_ge0 //.
- by rewrite invr_ge0 mulr_ge0 // ler0n.
- by rewrite divr_ge0 // ltW.
Qed.

(** The update of the notebook is that solution divided by [n]. *)
Lemma theta_update_scaled :
  ADMM.theta_update X y tau rho u = n%:R^-1 *: theta_solve X y tau rho u.
Proof. by []. Qed.

End ThetaUpdate.

(** The instance [X = [[1], [1]]], [y = [1, 3]], [tau = 1], [rho = u = 0]. *)
Lemma theta_solve_21 : theta_solve X21 y21 1 0 0 = const_mx 1.
Proof.
rewrite /theta_solve; set A := (X in invmx X).
rewrite (mx11_scalar A) invmx_scalar mul_scalar_mx.
apply/matrixP => i j; rewrite /A !mxE !big_ord_recl !big_ord0 !mxE /=.
by field.
Qed.

Lemma theta_objective_21 (c : rat) :
  ADMM.theta_objective X21 y21 1 0 0 (const_mx c)
  = 4^-1 * ((c - 1) ^+ 2 + (c - 3) ^+ 2) + 2^-1 * c ^+ 2.
Proof.
rewrite /ADMM.theta_objective /Np.sqnorm !big_ord_recl !big_ord0 !mxE.
rewrite !big_ord_recl !big_ord0 !mxE /=.
by field.
Qed.

(** C2: on this instance the update of the notebook returns [1/2], while
    the minimiser of the theta-subproblem is [1]; the objective is [3/2]
    at [1] and [7/4] at [1/2], so the update is not a minimiser. *)
Theorem theta_update_not_argmin :
  [/\ ADMM.theta_update X21 y21 1 0 0 = const_mx (1 / 2),
      is_argmin (ADMM.theta_objective X21 y21 1 0 0) (const_mx 1),
      ADMM.theta_objective X21 y21 1 0 0 (const_mx 1) = 3 / 2,
      ADMM.theta_objective X21 y21 1 0 0 (const_mx (1 / 2)) = 7 / 4
    & ~ is_argmin (ADMM.theta_objective X21 y21 1 0 0)
        (ADMM.theta_update X21 y21 1 0 0)].
Proof.
have Eu : ADMM.theta_update X21 y21 1 0 0 = const_mx (1 / 2).
  rewrite theta_update_scaled theta_solve_21.
  by apply/matrixP => i j; rewrite !mxE; lra.
have E1 : ADMM.theta_objective X21 y21 1 0 0 (const_mx 1) = 3 / 2.
  by rewrite theta_objective_21; lra.
have E2 : ADMM.theta_objective X21 y21 1 0 0 (const_mx (1 / 2)) = 7 / 4.
  by rewrite theta_objective_21; lra.
split=> //.
- by rewrite -theta_solve_21; apply: theta_solve_is_argmin.
- by rewrite Eu => /(_ (const_mx 1)); rewrite E1 E2; lra.
Qed.

(** ** The exponential inside the logistic gradient *)

Section LogisticExp.
Variable F : realFieldType.
Variables n p : nat.
Variable X : 'M[F]_(n, p).
Variable y : 'cV[F]_n.

(** Along the direction of [X[i]] the margin takes every value. *)
Lemma logistic_exp_arg_onto i (B : F) :
  y i 0 != 0 -> Np.getrow X i != 0 ->
  exists theta, Logistic.exp_arg X y theta i = B.
Proof.
move=> y0 x0; set x := Np.getrow X i.
have s0 : Np.sqnorm x != 0 by apply: contra_neq x0; exact: sqnorm_eq0.
exists ((B / (y i 0 * Np.sqnorm x)) *: x).
rewrite /Logistic.exp_arg -/x innerZr inner_self.
by field; rewrite y0 s0.
Qed.

End LogisticExp.

(** C8, as the code has it: for every datum and every parameter the
    per-datum logistic gradient is evaluated by the direct formula: it
    calls [np.exp] once, at the margin [y_i x_i^T theta] itself, which
    overflows exactly when the margin exceeds the threshold [log_max]; it
    then returns zero, and [(1/n) (- y_i / (1 + e^margin)) x_i] otherwise.
    For a datum with [y_i <> 0] and [x_i <> 0] the margin takes every value
    as [theta] varies, so that some parameter makes the call overflow. *)
Theorem logistic_gradient_direct_formula (F : realFieldType)
    (exp : F -> F) (log_max : F) n p
    (X : 'M[F]_(n, p)) (y : 'cV[F]_n) (i : 'I_n) :
  let margin theta := y i 0 * Np.inner (Np.getrow X i) theta in
  let eval theta := Logistic.grad_f_eval exp log_max X y theta i in
  [/\ forall theta, Logistic.exp_calls (eval theta) = [:: margin theta],
      forall theta, Logistic.overflow (eval theta) = (log_max < margin theta),
      forall theta,
        Logistic.value (eval theta)
        = if Logistic.overflow (eval theta) then 0
          else Logistic.grad_f exp X y theta i
    & y i 0 != 0 -> Np.getrow X i != 0 ->
      (forall B : F, exists theta, Logistic.exp_calls (eval theta) = [:: B])
      /\ exists theta, Logistic.overflow (eval theta)].
Proof.
move=> margin eval.
have ovf theta : Logistic.overflow (eval theta) = (log_max < margin theta).
  by rewrite /eval /Logistic.grad_f_eval /= /Logistic.np_exp; case: ifP.
split=> //.
- move=> theta; rewrite ovf /eval /Logistic.grad_f_eval /= /Logistic.np_exp.
  rewrite -/(margin theta); case: ifP => _ /=.
    by rewrite mulr0 scale0r.
  by rewrite /Logistic.grad_f /Logistic.exp_arg.
- move=> y0 x0; split.
    move=> B; have [theta E] := logistic_exp_arg_onto B y0 x0.
    by exists theta; rewrite /eval /Logistic.grad_f_eval /= -E.
  have [theta E] := logistic_exp_arg_onto (log_max + 1) y0 x0.
  exists theta; rewrite ovf /margin -/(Logistic.exp_arg X y theta i) E.
  by rewrite ltrDl.
Qed.

Lemma labels21_0 : labels21 ord0 0 != 0.
Proof. by rewrite mxE. Qed.

Lemma X21_row0 : Np.getrow X21 ord0 != 0.
Proof.
apply/eqP => /matrixP /(_ 0 0); rewrite !mxE => /eqP.
by rewrite oner_eq0.
Qed.

(** On [X = [[1], [1]]] with labels [y = [1, -1]] and a threshold of
    [709.78]; the values of [exp] play no part in the overflow. *)
Lemma logistic_gradient_direct_formula_witness :
  exists theta : 'cV[rat]_1,
    Logistic.overflow
      (Logistic.grad_f_eval (fun z => 1 + z ^+ 2) (709 + 78 / 100)
         X21 labels21 theta ord0).
Proof.
have [_ _ _ H] :=
  @logistic_gradient_direct_formula rat (fun z => 1 + z ^+ 2)
    (709 + 78 / 100) _ _ X21 labels21 ord0.
exact: (H labels21_0 X21_row0).2.
Defined.

Lemma near_710 : (709 + 79 / 100 : rat) < 710.
Proof.
rewrite -[710]/((709 + 1)%N%:R) natrD ltrD2l.
by lra.
Qed.

(** C8, as stated, fails: on [X = [[1], [1]]] with labels [y = [1, -1]],
    the gradient of datum 0 at [theta = [710]] calls [np.exp] at 710.
    The call overflows already for a threshold of 709.79, which is above
    that of binary64, and the gradient returned is zero; the values of
    [exp] play no part. *)
Lemma logistic_gradient_overflows_at_710 :
  let e exp :=
    Logistic.grad_f_eval exp (709 + 79 / 100) X21 labels21
      (const_mx 710) ord0 in
  [/\ forall exp, Logistic.exp_calls (e exp) = [:: 710],
      forall exp, Logistic.overflow (e exp)
    & forall exp, Logistic.value (e exp) = 0].
Proof.
move=> e.
have E : Logistic.exp_arg X21 labels21 (const_mx 710) ord0 = 710.
  rewrite /Logistic.exp_arg /Np.inner big_ord_recl big_ord0.
  by rewrite getrowE !mxE addr0 !mul1r.
have H exp : e exp = Logistic.Evaluation 0 [:: 710] true.
  rewrite /e /Logistic.grad_f_eval -/(Logistic.exp_arg X21 labels21 _ _) E.
  rewrite /Logistic.np_exp near_710.
  by rewrite [Logistic.np_div _ _]/= mulr0 scale0r.
by split=> exp; rewrite H.
Qed.

(** ** Least squares: the objective around a point *)

Section LeastSquaresObjective.
Variable F : realFieldType.
Variables n p : nat.
Variable X : 'M[F]_(n, p).
Variable y : 'cV[F]_n.

Lemma sqnormN m (v : 'cV[F]_m) : Np.sqnorm (- v) = Np.sqnorm v.
Proof. by apply: eq_bigr => i _; rewrite mxE sqrrN. Qed.

Lemma least_squares_expand (theta d : 'cV[F]_p) :
  LeastSquares.f X y (theta + d)
  = LeastSquares.f X y theta + Np.inner d (LeastSquares.full_grad_f X y theta)
    + 2^-1 * Np.sqnorm (X *m d).
Proof.
rewrite /LeastSquares.f /LeastSquares.full_grad_f.
have -> : y - X *m (theta + d) = (y - X *m theta) + - (X *m d).
  by rewrite mulmxDr opprD addrA.
rewrite sqnormD sqnormN !innerNr [Np.inner (y - _) _]innerC inner_mulmx.
by field.
Qed.

End LeastSquaresObjective.

(** X1: the least-squares objective is an exact quadratic around every
    point: [f(theta + d) = f(theta) + <d, full_grad_f(theta)>
    + 1/2 ||X d||^2]; in particular [f] lies above its tangent at every
    point. *)
Theorem least_squares_quadratic (F : realFieldType) n p
    (X : 'M[F]_(n, p)) (y : 'cV[F]_n) (theta d : 'cV[F]_p) :
  LeastSquares.f X y (theta + d)
  = LeastSquares.f X y theta + Np.inner d (LeastSquares.full_grad_f X y theta)
    + 2^-1 * Np.sqnorm (X *m d)
  /\ LeastSquares.f X y theta
     + Np.inner d (LeastSquares.full_grad_f X y theta)
     <= LeastSquares.f X y (theta + d).
Proof.
rewrite least_squares_expand; split=> //.
by rewrite lerDl mulr_ge0 ?sqnorm_ge0 // invr_ge0 ler0n.
Qed.

(** X2: when [X^T X] is invertible, the vector returned by [theta_star]
    minimises the least-squares objective [f] over all parameters. *)
Theorem theta_star_minimises_f (F : realFieldType) n p
    (X : 'M[F]_(n, p)) (y : 'cV[F]_n) :
  X^T *m X \in unitmx ->
  exists2 theta_s : 'cV[F]_p,
    LeastSquares.theta_star X y = inr theta_s
    & is_argmin (LeastSquares.f X y) theta_s.
Proof.
move=> U; exists (invmx (X^T *m X) *m X^T *m y); first exact: theta_star_unit.
move=> theta; set ts := invmx _ *m _ *m _.
have -> : theta = ts + (theta - ts) by rewrite addrC subrK.
rewrite least_squares_expand normal_equations // inner0r addr0.
by rewrite lerDl mulr_ge0 ?sqnorm_ge0 // invr_ge0 ler0n.
Qed.

Lemma theta_star_minimises_f_witness :
  exists2 theta_s : 'cV[rat]_1,
    LeastSquares.theta_star X21 y21 = inr theta_s
    & is_argmin (LeastSquares.f X21 y21) theta_s.
Proof. exact: (theta_star_minimises_f y21 X21_gram_unit). Defined.

(** X3: for a square invertible [X] the closed-form minimiser solves the
    system exactly: it is returned, [X theta_star = y] and
    [f(theta_star) = 0]. *)
Theorem theta_star_interpolates (F : realFieldType) n
    (X : 'M[F]_n) (y : 'cV[F]_n) :
  X \in unitmx ->
  exists theta_s : 'cV[F]_n,
    [/\ LeastSquares.theta_star X y = inr theta_s,
        X *m theta_s = y
      & LeastSquares.f X y theta_s = 0].
Proof.
move=> U.
have Ut : X^T \in unitmx by rewrite unitmx_tr.
have UU : X^T *m X \in unitmx by rewrite unitmx_mul Ut U.
exists (invmx (X^T *m X) *m X^T *m y).
have E : X *m (invmx (X^T *m X) *m X^T *m y) = y.
  have := normal_equations y UU; rewrite /LeastSquares.full_grad_f.
  move/eqP; rewrite oppr_eq0 => /eqP /(congr1 (mulmx (invmx X^T))).
  by rewrite mulKmx // mulmx0 => /eqP; rewrite subr_eq0 => /eqP.
split=> //; first exact: theta_star_unit.
rewrite /LeastSquares.f E subrr /Np.sqnorm big1 ?mulr0 // => i _.
by rewrite mxE expr0n.
Qed.

Lemma theta_star_interpolates_witness :
  exists theta_s : 'cV[rat]_2,
    [/\ LeastSquares.theta_star (1%:M : 'M[rat]_2) (const_mx 3) = inr theta_s,
        1%:M *m theta_s = const_mx 3
      & LeastSquares.f (1%:M : 'M[rat]_2) (const_mx 3) theta_s = 0].
Proof. exact: (theta_star_interpolates (const_mx 3) (unitmx1 _ 2)). Defined.

(** ** One stochastic step on the datum it draws *)

(** X4: a least-squares SGD step on datum [i] multiplies the residual of
    that datum, [y_i - x_i^T theta], by [1 - gamma ||x_i||^2]. *)
Theorem sgd_step_scales_residual (F : realFieldType) n p
    (X : 'M[F]_(n, p)) (y : 'cV[F]_n) (step_size : F)
    (t : nat) (i : 'I_n) (s : SGD.state F p) :
  let s' := SGD.body (least_squares_oracle X y) step_size t i s in
  let residual theta := y i 0 - Np.inner (Np.getrow X i) theta in
  residual (SGD.theta s')
  = (1 - step_size * Np.sqnorm (Np.getrow X i)) * residual (SGD.theta s).
Proof.
move=> s' residual.
have -> : SGD.theta s'
          = SGD.theta s
            + (step_size * residual (SGD.theta s)) *: Np.getrow X i.
  rewrite /s' /SGD.body /=; case: ifP => _ /=;
    by rewrite /LeastSquares.grad_f scalerN opprK scalerA.
by rewrite /residual innerDr innerZr inner_self; ring.
Qed.

(** X5: for a positive exponential and a non-negative step, a logistic
    SGD step on datum [i] never lowers the margin [y_i x_i^T theta] of
    that datum. *)
Theorem logistic_step_raises_margin (F : realFieldType) (exp log : F -> F)
    n p (X : 'M[F]_(n, p)) (y : 'cV[F]_n) (step_size : F)
    (t : nat) (i : 'I_n) (s : SGD.state F p) :
  (forall z, 0 < exp z) -> 0 <= step_size ->
  Logistic.exp_arg X y (SGD.theta s) i
  <= Logistic.exp_arg X y
       (SGD.theta (SGD.body (logistic_oracle exp log X y) step_size t i s)) i.
Proof.
move=> exp0 g0; set s' := SGD.body _ _ _ _ _.
set e := exp (Logistic.exp_arg X y (SGD.theta s) i).
have -> : SGD.theta s'
          = SGD.theta s
            + (step_size * (n%:R^-1 * (y i 0 / (1 + e)))) *: Np.getrow X i.
  rewrite /s' /SGD.body /=; case: ifP => _ /=;
    by rewrite /Logistic.grad_f -/e scalerA mulNr !mulrN scaleNr opprK.
rewrite /Logistic.exp_arg innerDr innerZr inner_self mulrDr lerDl.
have -> : y i 0 * (step_size * (n%:R^-1 * (y i 0 / (1 + e)))
                   * Np.sqnorm (Np.getrow X i))
          = step_size * n%:R^-1 * (1 + e)^-1 * (y i 0 ^+ 2)
            * Np.sqnorm (Np.getrow X i).
  by rewrite expr2 [y i 0 / _]mulrC !mulrA; ring.
move: (y i 0 ^+ 2) (sqr_ge0 (y i 0)) => q q0.
have e0 : 0 <= (1 + e)^-1 by rewrite invr_ge0 addr_ge0 // ltW // exp0.
have n0 : 0 <= n%:R^-1 :> F by rewrite invr_ge0 ler0n.
by rewrite !mulr_ge0 // sqnorm_ge0.
Qed.

Lemma logistic_step_raises_margin_witness :
  Logistic.exp_arg X21 labels21 (const_mx 0) ord0
  <= Logistic.exp_arg X21 labels21
       (SGD.theta
          (SGD.body (logistic_oracle (fun=> 1) (fun=> 0) X21 labels21) (1 / 4)
             0 ord0 (SGD.init (const_mx 0) (const_mx 0)))) ord0.
Proof.
exact: (@logistic_step_raises_margin _ (fun=> 1) (fun=> 0) _ _ X21 labels21
          (1 / 4) 0 ord0 (SGD.init (const_mx 0) (const_mx 0))
          (fun=> ltr01) (divr_ge0 ler01 (ler0n _ 4))).
Defined.

(** ** SGD: the averaged iterate *)

Section SgdAveraging.
Variable F : realFieldType.
Variables n p : nat.
Variable o : oracle F n p.
Variable step_size : F.

Lemma sgd_body_average t i (s : SGD.state F p) :
  let s' := SGD.body o step_size t i s in
  SGD.theta_averaged s'
  = (t.+1)%:R^-1 *: (t%:R *: SGD.theta_averaged s + SGD.theta s').
Proof. by rewrite /SGD.body; case: ifP. Qed.

Lemma running_mean_sum (avg th : nat -> 'cV[F]_p) :
  (forall t, avg t.+1 = (t.+1)%:R^-1 *: (t%:R *: avg t + th t.+1)) ->
  forall T, T%:R *: avg T = \sum_(t < T) th t.+1.
Proof.
move=> H; elim=> [|T IH]; first by rewrite scale0r big_ord0.
rewrite big_ord_recr /= -IH H scalerA.
by rewrite divff ?scale1r // pnatr_eq0.
Qed.

Lemma sgd_average_sum (d : nat -> 'I_n) (s0 : SGD.state F p) T :
  let it t := iteri t (fun t => SGD.body o step_size t (d t)) s0 in
  T%:R *: SGD.theta_averaged (it T) = \sum_(t < T) SGD.theta (it t.+1).
Proof.
move=> it.
apply: (running_mean_sum (avg := fun t => SGD.theta_averaged (it t))
          (th := fun t => SGD.theta (it t))) => t.
by rewrite /it iteriS sgd_body_average.
Qed.

End SgdAveraging.

(** X6: after [T + 1] iterations of the SGD loop, [theta_averaged] is the
    arithmetic mean of the [T + 1] iterates produced so far, whatever it
    held before the loop. *)
Theorem sgd_average_is_mean (F : realFieldType) n p
    (o : oracle F n p) (step_size : F) (Rng : Type)
    (randint : Rng -> 'I_n * Rng)
    (T : nat) (theta0 theta_averaged0 : 'cV[F]_p) (g0 : Rng) :
  let sgd t :=
    (SGD.run o step_size randint t (SGD.init theta0 theta_averaged0) g0).1 in
  SGD.theta_averaged (sgd T.+1)
  = (T.+1)%:R^-1 *: \sum_(t < T.+1) SGD.theta (sgd t.+1).
Proof.
move=> sgd.
have E t : sgd t = iteri t (fun t => SGD.body o step_size t (drawn randint g0 t))
                     (SGD.init theta0 theta_averaged0).
  by rewrite /sgd /SGD.run iteri_draw_then.
rewrite (eq_bigr (fun t : 'I_T.+1 =>
           SGD.theta (iteri t.+1
             (fun t => SGD.body o step_size t (drawn randint g0 t))
             (SGD.init theta0 theta_averaged0)))) => [t _|]; first by rewrite E.
rewrite -sgd_average_sum scalerA mulVf ?scale1r ?pnatr_eq0 //.
by rewrite E.
Qed.

(** ** Gradient descent on least squares *)

(** X7: on least squares, when [L] bounds the curvature
    ([||X v||^2 <= L ||v||^2] for all [v], as the largest eigenvalue of
    [X^T X] does), a step of size [1/L] along the opposite of
    [full_grad_f] lowers the objective [f] by at least
    [||full_grad_f(theta)||^2 / (2L)]. *)
Theorem least_squares_gradient_step_descent (F : realFieldType) n p
    (X : 'M[F]_(n, p)) (y : 'cV[F]_n) (L : F) (theta : 'cV[F]_p) :
  0 < L -> (forall v, Np.sqnorm (X *m v) <= L * Np.sqnorm v) ->
  LeastSquares.f X y (theta - L^-1 *: LeastSquares.full_grad_f X y theta)
  <= LeastSquares.f X y theta
     - (2 * L)^-1 * Np.sqnorm (LeastSquares.full_grad_f X y theta).
Proof.
move=> L0 HL; set g := LeastSquares.full_grad_f X y theta.
have -> : theta - L^-1 *: g = theta + (- L^-1) *: g by rewrite scaleNr.
rewrite least_squares_expand -/g innerC innerZr inner_self -scalemxAr.
have -> : Np.sqnorm ((- L^-1) *: (X *m g)) = L^-1 ^+ 2 * Np.sqnorm (X *m g).
  rewrite /Np.sqnorm mulr_sumr; apply: eq_bigr => i _.
  by rewrite mxE exprMn sqrrN.
have /(ler_wpM2l (_ : 0 <= 2^-1 * L^-1 ^+ 2)) := HL g.
rewrite mulr_ge0 ?invr_ge0 ?ler0n ?sqr_ge0 // => /(_ isT) H.
rewrite mulrA -addrA lerD2l; apply: le_trans (lerD (lexx _) H) _.
have Ln0 : L != 0 by rewrite gt_eqF.
rewrite le_eqVlt; apply/orP; left; apply/eqP.
by field.
Qed.

Lemma X21_curvature (v : 'cV[rat]_1) :
  Np.sqnorm (X21 *m v) <= 2 * Np.sqnorm v.
Proof.
rewrite /Np.sqnorm !big_ord_recl !big_ord0 !mxE !big_ord_recl !big_ord0 !mxE.
by rewrite !addr0 !mul1r mulr2n mulrDl mul1r.
Qed.

Lemma least_squares_gradient_step_descent_witness :
  LeastSquares.f X21 y21
    (const_mx 0 - 2^-1 *: LeastSquares.full_grad_f X21 y21 (const_mx 0))
  <= LeastSquares.f X21 y21 (const_mx 0)
     - (2 * 2)^-1
       * Np.sqnorm (LeastSquares.full_grad_f X21 y21 (const_mx 0)).
Proof.
have L0 : (0 : rat) < 2 by [].
exact: (@least_squares_gradient_step_descent _ _ _ X21 y21 2 (const_mx 0)
          L0 X21_curvature).
Defined.

(** ** SVRG: whole runs *)

Section SvrgRuns.
Variable F : realFieldType.
Variables n p : nat.
Variable o : oracle F n p.
Variable step_size : F.
Variable K : nat.
Variable Rng : Type.
Variable randint : Rng -> 'I_n * Rng.

Local Notation epoch := (SVRG.epoch o step_size randint).
Local Notation run := (SVRG.run o step_size randint).

Lemma svrg_runS T (s0 : SVRG.state F n p K) g :
  run T.+1 s0 g = epoch T ((run T s0 g).1, (run T s0 g).2).
Proof. by rewrite /SVRG.run iteriS -surjective_pairing. Qed.

Lemma svrg_epoch_theta_hat t (s : SVRG.state F n p K) g :
  SVRG.theta_hat (epoch t (s, g)).1
  = K%:R^-1 *: \sum_(k < K)
      SVRG.inner_iterate o step_size (SVRG.theta_hat s) (drawn randint g) k.+1.
Proof. by rewrite svrg_epochE /= mean0_inner_history. Qed.

Lemma svrg_epoch_f_history t (s : SVRG.state F n p K) g :
  SVRG.f_SVRG_history (epoch t (s, g)).1
  = rcons (SVRG.f_SVRG_history s) (f o (SVRG.theta_hat (epoch t (s, g)).1)).
Proof. by rewrite svrg_epochE. Qed.

Lemma svrg_epoch_calls t (s : SVRG.state F n p K) g :
  size (SVRG.calls (epoch t (s, g)).1) = (size (SVRG.calls s) + (2 * K).+1)%N
  /\ count (@SVRG.is_full F n p) (SVRG.calls (epoch t (s, g)).1)
     = (count (@SVRG.is_full F n p) (SVRG.calls s)).+1.
Proof.
have [l El [Hl Sl]] :=
  inner_callsP o step_size (SVRG.theta_hat s) (SVRG.theta_history s)
    (rcons (SVRG.calls s) (SVRG.FullGrad n (SVRG.theta_hat s)))
    (drawn randint g) K.
rewrite svrg_epochE /= El size_cat size_rcons Sl count_cat -cats1 count_cat /=.
move: Hl; rewrite has_count -leqNgt leqn0 => /eqP ->.
by rewrite addSn addnS !addn0 addn1.
Qed.

(** At a stationary snapshot every inner iterate is the snapshot. *)
Lemma inner_iterate_stationary (theta_hat : 'cV[F]_p) (d : nat -> 'I_n) k :
  full_grad_f o theta_hat = 0 ->
  SVRG.inner_iterate o step_size theta_hat d k = theta_hat.
Proof.
move=> g0; elim: k => [|k IH] //=.
by rewrite IH g0 subrr addr0 scaler0 subr0.
Qed.

End SvrgRuns.

(** X8: a snapshot at which the full gradient vanishes is a fixed point of
    SVRG: every epoch ([K > 0] inner steps) returns it as the next
    snapshot, whatever indices are drawn. *)
Theorem svrg_stationary_snapshot_fixed (F : realFieldType) n p
    (o : oracle F n p) (step_size : F) (K : nat) (Rng : Type)
    (randint : Rng -> 'I_n * Rng) (T : nat)
    (theta_hat0 : 'cV[F]_p) (g : Rng) :
  (0 < K)%N -> full_grad_f o theta_hat0 = 0 ->
  SVRG.theta_hat
    (SVRG.run o step_size randint T (SVRG.init n K theta_hat0) g).1
  = theta_hat0.
Proof.
move=> K0 g0; elim: T => [|T IH] //.
rewrite svrg_runS svrg_epoch_theta_hat IH.
rewrite (eq_bigr (fun=> theta_hat0)) => [k _|].
  exact: inner_iterate_stationary.
rewrite sumr_const card_ord -scaler_nat scalerA mulVf ?scale1r //.
by rewrite pnatr_eq0 -lt0n.
Qed.

Lemma ls21_stationary : full_grad_f ls21 (const_mx 2) = 0.
Proof.
apply/matrixP => i j; rewrite /ls21 /= /LeastSquares.full_grad_f !mxE.
rewrite !big_ord_recl !big_ord0 !mxE !big_ord_recl !big_ord0 !mxE /=.
by lra.
Qed.

Lemma svrg_stationary_snapshot_fixed_witness :
  SVRG.theta_hat
    (SVRG.run ls21 (1 / 4) alternate 2 (SVRG.init 2 3 (const_mx 2)) 0%N).1
  = const_mx 2.
Proof.
exact: (@svrg_stationary_snapshot_fixed _ _ _ ls21 (1 / 4) 3 _ alternate 2
          (const_mx 2) 0%N isT ls21_stationary).
Defined.

(** X9: with one inner step per epoch ([max_iter_inner = 1]) SVRG is
    full-batch gradient descent, whatever indices are drawn: each epoch
    moves the snapshot by [- step_size * full_grad_f(theta_hat)], and the
    recorded objective values are those of the successive snapshots. *)
Theorem svrg_single_inner_step_is_gd (F : realFieldType) n p
    (o : oracle F n p) (step_size : F) (Rng : Type)
    (randint : Rng -> 'I_n * Rng) (T : nat)
    (theta0 : 'cV[F]_p) (g : Rng) :
  let svrg t :=
    (SVRG.run o step_size randint t (SVRG.init n 1 theta0) g).1 in
  SVRG.theta_hat (svrg T.+1)
  = SVRG.theta_hat (svrg T)
    - step_size *: full_grad_f o (SVRG.theta_hat (svrg T))
  /\ SVRG.f_SVRG_history (svrg T)
     = [seq f o (SVRG.theta_hat (svrg t.+1)) | t <- iota 0 T].
Proof.
move=> svrg; split.
  rewrite /svrg svrg_runS svrg_epoch_theta_hat.
  by rewrite big_ord_recl big_ord0 addr0 invr1 scale1r /= subrr add0r.
rewrite {}/svrg; elim: T => [|T IH] //.
rewrite svrg_runS svrg_epoch_f_history IH -svrg_runS.
by rewrite -[in RHS](addn1 T) iotaD map_cat /= add0n cats1.
Qed.

(** X10: the cost of [T] SVRG epochs of [K] inner steps, from the initial
    state: [T] evaluations of the full gradient among [T (2K + 1)] oracle
    evaluations in all, [T K] indices drawn, and [T] recorded objective
    values. *)
Theorem svrg_run_cost (F : realFieldType) n p
    (o : oracle F n p) (step_size : F) (K : nat) (Rng : Type)
    (randint : Rng -> 'I_n * Rng) (T : nat)
    (theta0 : 'cV[F]_p) (g : Rng) :
  let r := SVRG.run o step_size randint T (SVRG.init n K theta0) g in
  [/\ count (@SVRG.is_full F n p) (SVRG.calls r.1) = T,
      size (SVRG.calls r.1) = (T * (2 * K).+1)%N,
      r.2 = rng_after randint g (T * K)
    & size (SVRG.f_SVRG_history r.1) = T].
Proof.
move=> r; rewrite {}/r; split.
- elim: T => [|T IH] //.
  by rewrite svrg_runS (svrg_epoch_calls _ _ _ _ _ _).2 IH.
- elim: T => [|T IH] //.
  by rewrite svrg_runS (svrg_epoch_calls _ _ _ _ _ _).1 IH mulSn addnC.
- exact: svrg_run_rng.
- elim: T => [|T IH] //.
  by rewrite svrg_runS svrg_epoch_f_history size_rcons IH.
Qed.

(** ** SAGA: the contents of the gradient table *)

Section SagaTable.
Variable F : realFieldType.
Variables n p : nat.
Variable o : oracle F n p.
Variable step_size : F.
Variable d : nat -> 'I_n.
Variable s0 : SAGA.state F n p.

Local Notation it t := (iteri t (fun t => SAGA.body o step_size t (d t)) s0).

Lemma saga_body_row t i j (s : SAGA.state F n p) :
  Np.getrow (SAGA.gradients (SAGA.body o step_size t i s)) j
  = if j == i then grad_f o (SAGA.theta s) i
    else Np.getrow (SAGA.gradients s) j.
Proof. by rewrite /SAGA.body /= getrow_setrow. Qed.

Lemma saga_row_unvisited T j :
  (forall t, (t < T)%N -> d t != j) ->
  Np.getrow (SAGA.gradients (it T)) j = Np.getrow (SAGA.gradients s0) j.
Proof.
elim: T => [|T IH] // H.
rewrite iteriS saga_body_row eq_sym (negbTE (H T (ltnSn T))).
by apply: IH => t tT; apply: H; apply: ltnW.
Qed.

Lemma saga_row_last_visit T t0 j :
  (t0 < T)%N -> d t0 = j ->
  (forall t, (t0 < t < T)%N -> d t != j) ->
  Np.getrow (SAGA.gradients (it T)) j = grad_f o (SAGA.theta (it t0)) j.
Proof.
elim: T => [|T IH] //; rewrite ltnS leq_eqVlt => /orP [/eqP -> | t0T] dj H.
  by rewrite iteriS saga_body_row dj eqxx.
rewrite iteriS saga_body_row eq_sym.
have /negbTE -> : d T != j by apply: H; rewrite t0T ltnSn.
by apply: IH => // t /andP [t0t tT]; apply: H; rewrite t0t ltnW.
Qed.

End SagaTable.

(** X11: in SAGA, the table row of a datum that none of the first [T]
    draws returned is still the zero row after [T] iterations. *)
Theorem saga_unvisited_row_zero (F : realFieldType) n p
    (o : oracle F n p) (step_size : F) (Rng : Type)
    (randint : Rng -> 'I_n * Rng) (T : nat)
    (theta0 : 'cV[F]_p) (g0 : Rng) (j : 'I_n) :
  (forall t, (t < T)%N -> drawn randint g0 t != j) ->
  Np.getrow
    (SAGA.gradients (SAGA.run o step_size randint T (SAGA.init n theta0) g0).1)
    j
  = 0.
Proof.
move=> H; rewrite /SAGA.run iteri_draw_then /= saga_row_unvisited //.
by apply/matrixP => a b; rewrite /Np.getrow !mxE.
Qed.

Lemma alternate_drawn0 : drawn alternate 0%N 0 != (inord 1 : 'I_2).
Proof.
by rewrite /drawn /alternate /= -val_eqE /= !inordK.
Qed.

Lemma saga_unvisited_row_zero_witness :
  Np.getrow
    (SAGA.gradients
       (SAGA.run ls21 (1 / 4) alternate 1 (SAGA.init 2 (const_mx 1)) 0%N).1)
    (inord 1)
  = 0.
Proof.
apply: (@saga_unvisited_row_zero _ _ _ ls21 (1 / 4) _ alternate 1
          (const_mx 1) 0%N (inord 1)) => t.
by rewrite ltnS leqn0 => /eqP ->; exact: alternate_drawn0.
Defined.

(** X12: in SAGA, the table row of a datum holds the per-datum gradient
    evaluated at the iterate the loop had when that datum was last drawn:
    if draw [t0 < T] returned [j] and no later draw before [T] did, row
    [j] after [T] iterations is [grad_f(theta_{t0}, j)]. *)
Theorem saga_row_is_last_visit_gradient (F : realFieldType) n p
    (o : oracle F n p) (step_size : F) (Rng : Type)
    (randint : Rng -> 'I_n * Rng) (T t0 : nat)
    (theta0 : 'cV[F]_p) (g0 : Rng) (j : 'I_n) :
  (t0 < T)%N -> drawn randint g0 t0 = j ->
  (forall t, (t0 < t < T)%N -> drawn randint g0 t != j) ->
  let saga t :=
    (SAGA.run o step_size randint t (SAGA.init n theta0) g0).1 in
  Np.getrow (SAGA.gradients (saga T)) j = grad_f o (SAGA.theta (saga t0)) j.
Proof.
move=> t0T dj H saga; rewrite /saga /SAGA.run !iteri_draw_then /=.
exact: saga_row_last_visit.
Qed.

(** On the instance [ls21] with the alternating draws [0, 1, 0]: datum 1
    is drawn at [t0 = 1] and not at [t = 2], so after three iterations its
    row is [grad_f(theta_1, 1)], which is [-11/4] from [theta_0 = 0] with
    step [1/4]. *)
Lemma alternate_drawn1 : drawn alternate 0%N 1 = (inord 1 : 'I_2).
Proof. by rewrite /drawn /alternate. Qed.

Lemma alternate_drawn2 : drawn alternate 0%N 2 != (inord 1 : 'I_2).
Proof. by rewrite /drawn /alternate /= -val_eqE /= !inordK. Qed.

Lemma saga_theta1 :
  SAGA.theta
    (SAGA.run ls21 (1 / 4) alternate 1 (SAGA.init 2 (const_mx 0)) 0%N).1
  = const_mx (1 / 4).
Proof.
rewrite /SAGA.run /= /draw_then /= /SAGA.body /=.
apply/matrixP => a b; rewrite !mxE /Np.inner big_ord_recl big_ord0 !mxE.
by rewrite inordK.
Qed.

Lemma saga_grad1 :
  grad_f ls21 (const_mx (1 / 4)) (inord 1) = const_mx (- (11 / 4)).
Proof.
apply/matrixP => a b; rewrite !mxE /Np.inner big_ord_recl big_ord0 !mxE.
by rewrite inordK.
Qed.

Lemma saga_row_is_last_visit_gradient_witness :
  Np.getrow
    (SAGA.gradients
       (SAGA.run ls21 (1 / 4) alternate 3 (SAGA.init 2 (const_mx 0)) 0%N).1)
    (inord 1)
  = grad_f ls21
      (SAGA.theta
         (SAGA.run ls21 (1 / 4) alternate 1 (SAGA.init 2 (const_mx 0)) 0%N).1)
      (inord 1)
  /\ grad_f ls21
       (SAGA.theta
          (SAGA.run ls21 (1 / 4) alternate 1 (SAGA.init 2 (const_mx 0)) 0%N).1)
       (inord 1)
     = const_mx (- (11 / 4)).
Proof.
split; last by rewrite saga_theta1 saga_grad1.
apply: (@saga_row_is_last_visit_gradient _ _ _ ls21 (1 / 4) _ alternate 3 1
          (const_mx 0) 0%N (inord 1) isT alternate_drawn1) => t.
case: t => [|[|[|t]]] //= _; exact: alternate_drawn2.
Defined.

(** X13: after any number of SAGA iterations the direction
    [G_i = grad_f(theta, i) - gradients[i] + mean_gradient], averaged over
    the data [i], is the average of the per-datum gradients at the current
    iterate: the stored gradients cancel against their running mean. *)
Theorem saga_direction_unbiased (F : realFieldType) n p
    (o : oracle F n p) (step_size : F) (Rng : Type)
    (randint : Rng -> 'I_n * Rng) (T : nat)
    (theta0 : 'cV[F]_p) (g0 : Rng) :
  let s := (SAGA.run o step_size randint T (SAGA.init n theta0) g0).1 in
  n%:R^-1 *: \sum_i (grad_f o (SAGA.theta s) i
                     - Np.getrow (SAGA.gradients s) i + SAGA.mean_gradient s)
  = n%:R^-1 *: \sum_i grad_f o (SAGA.theta s) i.
Proof.
move=> s.
have n0 : n%:R != 0 :> F by rewrite pnatr_eq0 -lt0n (randint_pos randint g0).
have M : SAGA.mean_gradient s = Np.mean0 (SAGA.gradients s).
  by apply: saga_run_mean; rewrite /= mean0_zero.
rewrite big_split big_split /= sumr_const card_ord sumrN !scalerDr scalerN.
rewrite -scaler_nat scalerA mulVf // scale1r M /Np.mean0.
by rewrite -addrA addNr addr0.
Qed.

(** ** Simulated data *)

(** X14: on simulated regression data [y = X w + sigma xi] with [X^T X]
    invertible, the closed-form minimiser is the generating [w] plus a
    term linear in the noise, [sigma (X^T X)^-1 X^T xi]; without noise it
    is [w] itself. *)
Theorem theta_star_recovers_w (F : realFieldType) n p
    (X : 'M[F]_(n, p)) (w : 'cV[F]_p) (sigma : F) (xi : 'cV[F]_n) :
  X^T *m X \in unitmx ->
  LeastSquares.theta_star X (simulate_regression X w sigma xi)
    = inr (w + sigma *: (invmx (X^T *m X) *m X^T *m xi))
  /\ LeastSquares.theta_star X (simulate_regression X w 0 xi) = inr w.
Proof.
move=> U.
have E s : LeastSquares.theta_star X (simulate_regression X w s xi)
           = inr (w + s *: (invmx (X^T *m X) *m X^T *m xi)).
  rewrite theta_star_unit // /simulate_regression mulmxDr -scalemxAr.
  by rewrite -!mulmxA [X^T *m (X *m w)]mulmxA mulKmx.
by split; rewrite E // scale0r addr0.
Qed.

Lemma theta_star_recovers_w_witness :
  LeastSquares.theta_star X21 (simulate_regression X21 (const_mx 5) 0 y21)
  = inr (const_mx 5).
Proof.
exact: (proj2 (theta_star_recovers_w (const_mx 5) 0 y21 X21_gram_unit)).
Defined.

(** X15: on simulated labels [y = sign(X w)] (no noise) the generating
    [w] separates the data: the margin [y_i x_i^T w] of every datum is
    [|x_i^T w|], hence never negative. *)
Theorem noiseless_labels_separated (F : realFieldType) n p
    (X : 'M[F]_(n, p)) (w : 'cV[F]_p) (xi : 'cV[F]_n) (i : 'I_n) :
  Logistic.exp_arg X (simulate_labels X w 0 xi) w i = `|(X *m w) i 0|
  /\ 0 <= Logistic.exp_arg X (simulate_labels X w 0 xi) w i.
Proof.
have E : Logistic.exp_arg X (simulate_labels X w 0 xi) w i = `|(X *m w) i 0|.
  rewrite /Logistic.exp_arg /simulate_labels inner_getrow scale0r addr0 mxE.
  by rewrite -normrEsg.
by rewrite E.
Qed.

(** X16: the simulated Lasso coefficients are sparse: when [ind] is a
    shuffle of [0, ..., p - 1], at most ten coefficients are non-zero
    after [theta_star[ind[:-10]] = 0.], and the coefficients at the last
    ten positions of [ind] keep their values. *)
Theorem sparse_coefficients_at_most_ten (F : realFieldType) p
    (theta_star : 'cV[F]_p) (ind : seq nat) :
  perm_eq ind (iota 0 p) ->
  (#|[set j : 'I_p | (sparse_coefficients theta_star ind j 0 != 0)%R]|
   <= 10)%N
  /\ forall j : 'I_p,
       (j : nat) \in drop (size ind - 10) ind ->
       sparse_coefficients theta_star ind j 0 = theta_star j 0.
Proof.
move=> Hp; set k := (size ind - 10)%N.
have Hu : uniq ind by rewrite (perm_uniq Hp) iota_uniq.
have Hin (j : 'I_p) : (j : nat) \in ind.
  by rewrite (perm_mem Hp) mem_iota /= add0n.
have Hd (j : 'I_p) : ((j : nat) \in drop k ind) = ((j : nat) \notin take k ind).
  have := Hin j; rewrite -{1}(cat_take_drop k ind) mem_cat.
  move: Hu; rewrite -{1}(cat_take_drop k ind) cat_uniq => /and3P [_ /hasPn H _].
  case Ht: (_ \in take k ind) => /=; last by [].
  by move=> _; apply/negbTE/negP => /H; rewrite Ht.
split; last first.
  by move=> j; rewrite Hd /sparse_coefficients mxE -/k => /negbTE ->.
set A := [set j | _].
have sub : {subset [seq val j | j <- enum A] <= drop k ind}.
  move=> x /mapP [j]; rewrite mem_enum inE /sparse_coefficients mxE -/k => H ->.
  by rewrite Hd; move: H; case: (_ \in take k ind); rewrite ?eqxx.
have U : uniq [seq val j | j <- enum A].
  by rewrite map_inj_uniq ?enum_uniq //; exact: val_inj.
have := uniq_leq_size U sub; rewrite size_map -cardE size_drop => H.
apply: leq_trans H _; rewrite /k leq_subLR.
case: (leqP 10 (size ind)) => [/subnK -> //|/ltnW H].
exact: leq_trans H (leq_addl _ _).
Qed.

Lemma sparse_coefficients_at_most_ten_witness :
  let ind := [:: 3; 7; 0; 11; 5; 1; 9; 2; 10; 4; 8; 6]%N in
  (#|[set j : 'I_12 |
        (sparse_coefficients (const_mx 1 : 'cV[rat]_12) ind j 0 != 0)%R]|
   <= 10)%N
  /\ forall j : 'I_12,
       (j : nat) \in drop (size ind - 10) ind ->
       sparse_coefficients (const_mx 1 : 'cV[rat]_12) ind j 0 = 1.
Proof.
move=> ind.
have [H1 H2] := @sparse_coefficients_at_most_ten rat 12 (const_mx 1) ind isT.
by split=> // j /H2 ->; rewrite mxE.
Defined.

(** ** The tomography projection operator *)

Section TomoWeights.
Variable R : archiRealFieldType.

Lemma size_ravel m n (A : 'M[R]_(m, n)) : size (Tomo.ravel A) = (m * n)%N.
Proof. by rewrite /Tomo.ravel size_allpairs !size_enum_ord. Qed.

(** The fractional position of a point inside its cell. *)
Lemma alpha_bounds (v dx orig : R) :
  dx != 0 ->
  let a := (v - orig - (Num.floor ((v - orig) / dx))%:~R * dx) / dx in
  a = (v - orig) / dx - (Num.floor ((v - orig) / dx))%:~R /\ 0 <= a < 1.
Proof.
move=> dx0 a.
have E : a = (v - orig) / dx - (Num.floor ((v - orig) / dx))%:~R.
  by rewrite /a mulrBl mulfK.
split=> //; rewrite E subr_ge0 ltrBlDl.
have /andP [-> /=] := floor_itv ((v - orig) / dx).
by rewrite intrD addrC.
Qed.

Lemma weights_alpha_all m n (x : 'M[R]_(m, n)) (dx orig : R) :
  dx != 0 ->
  all (fun w => 0 <= w <= 1) (Tomo._weights x dx orig).2.
Proof.
move=> dx0; rewrite /Tomo._weights /= all_cat !all_map.
apply/andP; split; apply/allP => v _ /=.
- have [_ /andP [a0 a1]] := alpha_bounds v orig dx0.
  by rewrite subr_ge0 (ltW a1) gerBl.
- have [_ /andP [a0 a1]] := alpha_bounds v orig dx0.
  by rewrite a0 (ltW a1).
Qed.

End TomoWeights.

(** X17: [_weights] computes a linear interpolation.  For [dx <> 0] it
    returns two lists twice as long as the raveled input; for the point
    number [k], the second index is the first plus one, the two weights
    are non-negative and sum to one, and the indices weighted by them give
    back the position [(x_k - orig) / dx]. *)
Theorem weights_interpolate (R : archiRealFieldType) m n
    (x : 'M[R]_(m, n)) (dx orig : R) :
  dx != 0 ->
  let inds := (Tomo._weights x dx orig).1 in
  let w := (Tomo._weights x dx orig).2 in
  let N := (m * n)%N in
  [/\ size inds = (2 * N)%N /\ size w = (2 * N)%N,
      forall k, (k < N)%N -> nth 0 inds (N + k) = nth 0 inds k + 1,
      forall k, (k < N)%N ->
        nth 0 w k + nth 0 w (N + k) = 1 /\ 0 <= nth 0 w (N + k) < 1
    & forall k, (k < N)%N ->
        (nth 0 inds k)%:~R * nth 0 w k
        + (nth 0 inds (N + k))%:~R * nth 0 w (N + k)
        = (nth 0 (Tomo.ravel x) k - orig) / dx].
Proof.
move=> dx0 inds w N.
set xs := Tomo.ravel x.
have Sx : size xs = N by rewrite size_ravel.
pose fl v := Num.floor ((v - orig) / dx).
pose al v := (v - orig - (fl v)%:~R * dx) / dx.
have Ei : inds = [seq fl v | v <- xs] ++ [seq k + 1 | k <- [seq fl v | v <- xs]].
  by [].
have Ew : w = [seq 1 - a | a <- [seq al v | v <- xs]] ++ [seq al v | v <- xs].
  by [].
have I1 k : (k < N)%N -> nth 0 inds k = fl (nth 0 xs k).
  by move=> kN; rewrite Ei nth_cat size_map Sx kN (nth_map 0) ?Sx.
have I2 k : (k < N)%N -> nth 0 inds (N + k) = fl (nth 0 xs k) + 1.
  move=> kN; rewrite Ei nth_cat size_map Sx ltnNge leq_addr /= addKn.
  by rewrite (nth_map 0) ?size_map ?Sx // (nth_map 0) ?Sx.
have W1 k : (k < N)%N -> nth 0 w k = 1 - al (nth 0 xs k).
  move=> kN; rewrite Ew nth_cat !size_map Sx kN.
  by rewrite (nth_map 0) ?size_map ?Sx // (nth_map 0) ?Sx.
have W2 k : (k < N)%N -> nth 0 w (N + k) = al (nth 0 xs k).
  move=> kN; rewrite Ew nth_cat !size_map Sx ltnNge leq_addr /= addKn.
  by rewrite (nth_map 0) ?Sx.
split.
- by rewrite Ei Ew !size_cat !size_map Sx mul2n addnn.
- by move=> k kN; rewrite I2 // I1.
- move=> k kN; rewrite W2 // W1 // subrK; split=> //.
  by have [] := alpha_bounds (nth 0 xs k) orig dx0.
- move=> k kN; rewrite I2 // I1 // W2 // W1 //.
  have [E _] := alpha_bounds (nth 0 xs k) orig dx0.
  by rewrite -/(fl _) -/(al _) in E; rewrite intrD E; ring.
Qed.

Lemma weights_interpolate_witness :
  size (Tomo._weights (const_mx (3 / 2) : 'M[rat]_(1, 2)) 1 0).1 = 4%N.
Proof.
have dx0 : (1 : rat) != 0 by [].
by have [[-> _] _ _ _] :=
  weights_interpolate (const_mx (3 / 2) : 'M[rat]_(1, 2)) 0 dx0.
Defined.

Section TomoCoordinates.
Variable R : archiRealFieldType.

Lemma np_min_foldr (v : R) (s : seq R) :
  foldr Num.min v s \in v :: s /\ all (fun x => foldr Num.min v s <= x) (v :: s).
Proof.
elim: s => [|x s [IHin /= /andP [IHv IHs]]] /=; first by rewrite mem_head lexx.
split.
- rewrite minEle; case: ifP => _; first by rewrite !inE eqxx orbT.
  by move: IHin; rewrite !inE => /orP [->|->] //; rewrite !orbT.
- rewrite !ge_min lexx IHv orbT /=.
  by apply/allP => z zs; rewrite ge_min (allP IHs) ?orbT.
Qed.

(** The minimum of a non-empty array is its least element. *)
Lemma np_min_least (s : seq R) (m : R) :
  m \in s -> all (fun x => m <= x) s -> Tomo.np_min s = Some m.
Proof.
case: s => [|v s] // min alls /=; congr Some.
have [fin fall] := np_min_foldr v s.
by apply/eqP; rewrite eq_le (allP fall _ min) (allP alls _ fin).
Qed.

Lemma ravel_nil m n (A : 'M[R]_(m, n)) :
  (0 < m)%N -> (0 < n)%N -> exists v s, Tomo.ravel A = v :: s.
Proof.
move=> m0 n0; case E: (Tomo.ravel A) => [|v s]; last by exists v, s.
by have := size_ravel A; rewrite E /= => /esym /eqP; rewrite muln_eq0 -!leqn0 leqNgt m0 leqNgt n0.
Qed.

End TomoCoordinates.

(** X18: [_generate_center_coordinates] centres the pixel grid on zero:
    the row coordinate of pixel [(a, b)] is [a - (l_x - 1) / 2], the
    coordinate of the mirrored row is its opposite, the column array is
    the transpose of the row array, and the smallest coordinate, which
    the projection uses as origin, is [0.5 - l_x / 2]; for [l_x = 0] the
    array is empty and has no minimum. *)
Theorem center_coordinates_centered (R : archiRealFieldType) (l_x : nat) :
  let X := (Tomo._generate_center_coordinates R l_x).1 in
  let Y := (Tomo._generate_center_coordinates R l_x).2 in
  [/\ forall a b, X a b = (a : nat)%:R - (l_x%:R - 1) / 2,
      forall a b, X (rev_ord a) b = - X a b,
      Y = X^T
    & Tomo.np_min (Tomo.ravel X)
      = if l_x is 0 then None else Some (2^-1 - l_x%:R / 2)].
Proof.
move=> X Y.
have EX a b : X a b = (a : nat)%:R - (l_x%:R - 1) / 2.
  by rewrite /X /= mxE; field.
split=> //.
- move=> a b; rewrite !EX /= natrB ?ltn_ord // -[a.+1]addn1 natrD.
  by field.
- by apply/matrixP => a b; rewrite !mxE.
- case: l_x X Y EX => [|l] X Y EX.
    by rewrite /Tomo.ravel; case: (enum 'I_0) (size_enum_ord 0).
  apply: np_min_least.
    have -> : 2^-1 - l.+1%:R / 2 = X ord0 ord0 :> R by rewrite EX /=; field.
    by apply: allpairs_f; rewrite mem_enum.
  apply/allP => z /allpairsP [[a b] /= [_ _ ->]]; rewrite EX.
  have : (0 : R) <= (a : nat)%:R by rewrite ler0n.
  by lra.
Qed.

Section TomoBuild.
Variable R : archiRealFieldType.
Variables l_x n_dir : nat.

Local Notation coo_ok P :=
  [/\ size (Tomo.weights P) = size (Tomo.camera_inds P),
      size (Tomo.data_inds P) = size (Tomo.camera_inds P),
      all (fun w : R => 0 <= w <= 1) (Tomo.weights P),
      all (fun c : int => 0 <= c < (n_dir * l_x)%:Z) (Tomo.camera_inds P)
    & all (fun d => d < l_x ^ 2)%N (Tomo.data_inds P)].

Lemma weights_sizes m n (x : 'M[R]_(m, n)) (dx orig : R) :
  size (Tomo._weights x dx orig).1 = (2 * (m * n))%N
  /\ size (Tomo._weights x dx orig).2 = (2 * (m * n))%N.
Proof.
by rewrite /Tomo._weights /= !size_cat !size_map size_ravel mul2n addnn.
Qed.

Lemma add_directionE (X Y : 'M[R]_(l_x, l_x)) i c s acc orig :
  Tomo.np_min (Tomo.ravel X) = Some orig ->
  let W := Tomo._weights (c *: X - s *: Y) 1 orig in
  let msk := [seq (0 <= m) && (m < l_x%:Z) | m <- W.1] in
  Tomo.add_direction X Y i c s acc
  = Some (Tomo.Coo
            (Tomo.weights acc ++ mask msk W.2)
            (Tomo.camera_inds acc
               ++ [seq m + (i * l_x)%:Z | m <- mask msk W.1])
            (Tomo.data_inds acc
               ++ mask msk (iota 0 (l_x ^ 2) ++ iota 0 (l_x ^ 2)))).
Proof. by rewrite /Tomo.add_direction => ->. Qed.

Lemma add_direction_ok (X Y : 'M[R]_(l_x, l_x)) i c s acc :
  (0 < l_x)%N -> (i < n_dir)%N -> coo_ok acc ->
  exists2 P, Tomo.add_direction X Y i c s acc = Some P & coo_ok P.
Proof.
move=> l0 iN [S1 S2 Aw Ac Ad].
have [v [r E]] := ravel_nil X l0 l0.
have Hmin : Tomo.np_min (Tomo.ravel X) = Some (foldr Num.min v r) by rewrite E.
rewrite (add_directionE Y i c s acc Hmin).
set W := Tomo._weights _ _ _; set msk := [seq _ | m <- W.1].
have [SW1 SW2] := weights_sizes (c *: X - s *: Y) 1 (foldr Num.min v r).
have Sm : size msk = (2 * (l_x * l_x))%N by rewrite size_map SW1.
eexists; first by []; split=> /=.
- by rewrite !size_cat size_map S1 !size_mask ?Sm.
- rewrite !size_cat size_map S2 !size_mask ?Sm // size_cat !size_iota.
  by rewrite -mulnn mul2n addnn.
- rewrite all_cat Aw /=; apply: all_mask.
  by apply: weights_alpha_all; rewrite oner_eq0.
- rewrite all_cat Ac /= -filter_mask all_map.
  apply/allP => m; rewrite mem_filter => /andP [/andP [m0 ml] _] /=.
  rewrite addr_ge0 //=.
  apply: (@lt_le_trans _ _ (l_x%:Z + (i * l_x)%:Z)); first by rewrite ltrD2r.
  by rewrite -PoszD -mulSn lez_nat leq_mul2r iN orbT.
- rewrite all_cat Ad /=; apply: all_mask; rewrite all_cat andbb.
  by apply/allP => q; rewrite mem_iota add0n.
Qed.

Local Notation round cos sin X Y :=
  (fun (acc : option (Tomo.coo R)) (ia : nat * R) =>
     if acc is Some a
     then Tomo.add_direction X Y ia.1 (cos ia.2) (sin ia.2) a
     else None).

Lemma foldl_directions_ok (cos sin : R -> R) (X Y : 'M[R]_(l_x, l_x))
    (l : seq (nat * R)) acc :
  (0 < l_x)%N -> all (fun ia => ia.1 < n_dir)%N l -> coo_ok acc ->
  exists2 P, foldl (round cos sin X Y) (Some acc) l = Some P & coo_ok P.
Proof.
move=> l0; elim: l acc => [|ia l IH] acc /=; first by move=> _ ok; exists acc.
case/andP => iN Hl ok.
have [P -> okP] := add_direction_ok X Y (cos ia.2) (sin ia.2) l0 iN ok.
exact: IH.
Qed.

Lemma foldl_directions_none (cos sin : R -> R) (X Y : 'M[R]_(l_x, l_x))
    (l : seq (nat * R)) :
  foldl (round cos sin X Y) None l = None.
Proof. by elim: l. Qed.

End TomoBuild.

Lemma add_direction_empty (R : archiRealFieldType) (X Y : 'M[R]_(0, 0))
    i c s acc :
  Tomo.add_direction X Y i c s acc = None.
Proof.
rewrite /Tomo.add_direction /Tomo.ravel.
by have -> : enum 'I_0 = [::] by case: (enum 'I_0) (size_enum_ord 0).
Qed.

Lemma foldl_directions_empty (R : archiRealFieldType) (cos sin : R -> R)
    (X Y : 'M[R]_(0, 0)) (l : seq (nat * R)) acc :
  l != [::] ->
  foldl (fun (acc : option (Tomo.coo R)) (ia : nat * R) =>
           if acc is Some a
           then Tomo.add_direction X Y ia.1 (cos ia.2) (sin ia.2) a
           else None) (Some acc) l
  = None.
Proof.
case: l => [|ia l] // _.
rewrite [foldl _ _ _]/= add_direction_empty.
exact: foldl_directions_none.
Qed.

(** X19: for an image of side [l_x > 0], [build_projection_operator]
    hands [sparse.coo_matrix] three lists of the same length in which
    every weight lies in [[0, 1]], every row index (detector bin) lies in
    [[0, n_dir * l_x)] and every column index (pixel) is below [l_x^2]:
    the operator has at most [n_dir * l_x] rows and [l_x^2] columns. *)
Theorem projection_operator_entries (R : archiRealFieldType)
    (cos sin : R -> R) (pi : R) (l_x n_dir : nat) :
  (0 < l_x)%N ->
  exists2 P, Tomo.build_projection_operator cos sin pi l_x n_dir = Some P
  & [/\ size (Tomo.weights P) = size (Tomo.camera_inds P),
        size (Tomo.data_inds P) = size (Tomo.camera_inds P),
        all (fun w : R => 0 <= w <= 1) (Tomo.weights P),
        all (fun c : int => 0 <= c < (n_dir * l_x)%:Z) (Tomo.camera_inds P)
      & all (fun d => d < l_x ^ 2)%N (Tomo.data_inds P)].
Proof.
move=> l0; rewrite /Tomo.build_projection_operator /=.
apply: foldl_directions_ok => //.
rewrite -(all_map fst (fun i => i < n_dir)%N) -/(unzip1 _).
rewrite unzip1_zip ?size_map //.
by apply/allP => i; rewrite mem_iota add0n.
Qed.

Lemma projection_operator_entries_witness :
  exists2 P,
    Tomo.build_projection_operator (fun=> 1) (fun=> 0) (3 : rat) 2 2 = Some P
    & size (Tomo.weights P) = size (Tomo.camera_inds P).
Proof.
have [P E [S _ _ _ _]] :=
  @projection_operator_entries _ (fun=> 1) (fun=> 0) (3 : rat) 2 2 isT.
by exists P.
Defined.

(** X20: for an image of side [0] the operator cannot be built as soon
    as there is one direction: the minimum of the empty coordinate array
    is taken in the first round and raises; with no direction the three
    lists stay empty. *)
Theorem projection_operator_empty_image (R : archiRealFieldType)
    (cos sin : R -> R) (pi : R) (n_dir : nat) :
  Tomo.build_projection_operator cos sin pi 0 n_dir
  = if n_dir is 0 then Some (Tomo.Coo [::] [::] [::]) else None.
Proof.
case: n_dir => [|k] //; rewrite /Tomo.build_projection_operator.
case: (Tomo._generate_center_coordinates R 0) => X Y.
exact: foldl_directions_empty.
Qed.
